(** * N9.js: hexagonal grids, boundary folding and the random walk

    A shallow embedding of [src/hexagons.mjs], of the helpers of [util.mjs]
    it uses, and of [generateWorld] from [src/app.mjs].

    Conventions of the embedding.
    - An axial coordinate [[q, r]] whose components are integers is a pair of
      [Z]; JavaScript's [-0] and [0] are the same integer (they compare equal,
      have the same absolute value and the same property key ["0"]).
    - Integers are added, subtracted and compared exactly. The code does so
      in binary64, which is the same as long as every value it forms is an
      integer of at most [2^53] in absolute value: what is proved of the
      arithmetic on arbitrary coordinates bounds them ([small]), and
      [Binary64] has the functions on doubles, for what the code does
      beyond.
    - Pixel coordinates and sizes are IEEE 754 binary64 numbers: [float].
    - [undefined] and [-Infinity] in integer code are [None].
    - Recursion and loops that the source does not bound take a [fuel]
      argument; [None] means that the fuel ran out before the call returned.
    - [Math.random] is an oracle: a sequence of natural numbers, one per call. *)

From Stdlib Require Import ZArith QArith Qround Lia Lqa List Floats.
From stdpp Require Import base option list gmap.

Local Open Scope Z_scope.

Definition axial : Type := Z * Z.

(** ** util.mjs *)
Module Util.

(** [range(n)]: the integers of [[0, n)]. *)
Definition range (n : nat) : list nat := seq 0 n.

(** [add(a)(b)] on two-element arrays: [zip] then the sum of each pair,
    exact as long as it is at most [2^53] in absolute value. *)
Definition add (a b : axial) : axial := (a.1 + b.1, a.2 + b.2).

(** [x > max[1]], where [max[1]] starts as [-Infinity]. *)
Definition gt_acc (x : Z) (m : option Z) : bool :=
  match m with
  | None => true
  | Some m => m <? x
  end.

(** [argmax(array)]: [reduce] from [[undefined, -Infinity]], replacing the
    accumulator only by a strictly larger entry. *)
Definition argmax (array : list Z) : option nat * option Z :=
  fold_left
    (fun max ix => if gt_acc ix.2 max.2 then (Some ix.1, Some ix.2) else max)
    (combine (seq 0 (length array)) array)
    (None, None).

(** [max_by(array, key)]: [array[index]], which is [undefined] when the index is. *)
Definition max_by {A} (array : list A) (key : A -> Z) : option A :=
  match (argmax (map key array)).1 with
  | Some index => array !! index
  | None => None
  end.

Definition min_by {A} (array : list A) (key : A -> Z) : option A :=
  max_by array (fun x => - key x).

(** *** Randomness

    The [k]-th call of [Math.random] is the [k]-th value of the oracle.
    [randint(a, b)] is [lerp(t, a, b) | 0] for [t] in [[0, 1)]: for [a < b]
    (the only calls there are) any integer of [[a, b)], here [a] plus the
    oracle's value reduced modulo [b - a]. For [0 < a] a draw next to 1
    rounds up to [b] ([Binary64.randint]); [shuffled] then stores
    [undefined] and the walk throws: an oracle stands for the draws of a
    run in which this does not happen, and every run that returns is the
    run of an oracle. *)
Definition oracle : Type := nat -> nat.

Definition randint (a b : nat) (g : oracle) : nat * oracle :=
  (match (b - a)%nat with
   | O => a
   | S _ => (a + g O mod (b - a))%nat
   end,
   fun k => g (S k)).

(** [[array_[i], array_[j]] = [array_[j], array_[i]]]: both reads, then
    the write at [i], then the write at [j]. *)
Definition swap {A} (array_ : list A) (i j : nat) : list A :=
  match array_ !! i, array_ !! j with
  | Some x, Some y => <[j := x]> (<[i := y]> array_)
  | _, _ => array_
  end.

Fixpoint shuffle_from {A} (indices : list nat) (array_ : list A) (g : oracle)
  : list A * oracle :=
  match indices with
  | [] => (array_, g)
  | i :: indices' =>
      let '(j, g') := randint i (length array_) g in
      shuffle_from indices' (swap array_ i j) g'
  end.

Definition shuffled {A} (array : list A) (g : oracle) : list A * oracle :=
  shuffle_from (range (length array - 1)) array g.

(** *** [defaultdict]

    A proxy over an object whose [get] stores [factory(name)] under a name
    that is absent, and returns what is stored. Property names are the
    decimal strings of integers here, so keys are integers. The result is
    the value read and the object after the read. *)
Definition dd_get {V} (factory : V) (target : gmap Z V) (name : Z)
  : V * gmap Z V :=
  match target !! name with
  | Some v => (v, target)
  | None => (factory, <[name := factory]> target)
  end.

(** *** Numbers of the pixel plane *)
Definition sum (array : list float) : float :=
  fold_left (fun sum x => (sum + x)%float) array 0%float.

Definition zip {A B} (a : list A) (b : list B) : list (A * B) := combine a b.

Definition dot (x1 x2 : list float) : float :=
  sum (map (fun ab => (ab.1 * ab.2)%float) (zip x1 x2)).

(** [matrix[0].map((_, i) => matrix.map((row) => row[i]))]; an absent
    [row[i]] is [undefined], which every product turns into [NaN]. *)
Definition transpose (matrix : list (list float)) : list (list float) :=
  match matrix with
  | [] => []
  | row0 :: _ => imap (fun i _ => map (fun row => nth i row nan) matrix) row0
  end.

Definition matmul (x1 x2 : list (list float)) : list (list float) :=
  map (fun row => map (fun col => dot row col) (transpose x2)) x1.

End Util.

(** ** hexagons.mjs *)
Module Hexagons.
Import Util.

Definition origin : axial := (0, 0).

Definition directions : list axial :=
  [ (0, 1); (0, -1); (-1, 1); (1, -1); (1, 0); (-1, 0) ].

(** [ToInt32] and the signed shift [x >> n] (for [0 <= n < 32]). *)
Definition to_int32 (x : Z) : Z := (x + 2 ^ 31) mod 2 ^ 32 - 2 ^ 31.
Definition sar (x n : Z) : Z := Z.shiftr (to_int32 x) n.

(** The two conversions; the sum and the difference are exact as long as
    they are at most [2^53] in absolute value. *)
Definition odd_q_to_axial (c : Z * Z) : axial :=
  let '(x, y) := c in (x, y - sar x 1).

Definition axial_to_odd_q (c : axial) : Z * Z :=
  let '(x, y) := c in (x, y + sar x 1).

(** Exact as long as [q + r] is at most [2^53] in absolute value. *)
Definition anticlockwise (c : axial) : axial :=
  let '(q, r) := c in
  let s := - q - r in
  (- s, - q).

(** [range(t).reduce(anticlockwise, qr)]: the callback ignores the element. *)
Definition rotation (qr : axial) (t : nat) : axial :=
  fold_left (fun acc _ => anticlockwise acc) (range t) qr.

(** Exact as long as the sums [As], [Bs] and the three differences are at
    most [2^53] in absolute value. *)
Definition distance (a b : axial) : Z :=
  let '(Aq, Ar) := a in
  let '(Bq, Br) := b in
  let As := - Aq - Ar in
  let Bs := - Bq - Br in
  Z.max (Z.max (Z.abs (Aq - Bq)) (Z.abs (Ar - Br))) (Z.abs (As - Bs)).

(** Exact as long as the result is at most [2^53]: up to a radius of
    about [5.4e7]. *)
Definition area (r : Z) : Z := 3 * r ^ 2 + 3 * r + 1.

Definition centers (radius : Z) : list axial :=
  map (fun t => rotation (radius, radius + 1) t) (range 6).

(** What one call of the function that [wrap(radius)] returns does: it returns
    a coordinate, or it calls itself on another one, or it throws
    (destructuring an [undefined] result of [min_by]). The centers, the
    distances and the difference are exact for a radius and a coordinate
    that are [small]; [Binary64.wrap_call] is the call on doubles. *)
Inductive wrap_step : Type :=
| Return (c : axial)
| Recurse (c : axial)
| Throw.

Definition wrap_call (radius : Z) (c : axial) : wrap_step :=
  let '(q, r) := c in
  if distance (q, r) origin <=? radius then Return (q, r)
  else
    match min_by (centers radius) (distance (q, r)) with
    | Some (dq, dr) => Recurse (q - dq, r - dr)
    | None => Throw
    end.

(** [wrap(radius)(c)], the recursion unrolled at most [fuel] calls deep.
    [Throw] is [None] as well; no call throws (lemma [min_by_centers]). *)
Fixpoint wrap (fuel : nat) (radius : Z) (c : axial) : option axial :=
  match fuel with
  | O => None
  | S fuel' =>
      match wrap_call radius c with
      | Return c' => Some c'
      | Recurse c' => wrap fuel' radius c'
      | Throw => None
      end
  end.

(** *** The occupancy map

    [cells] is a [defaultdict] of [defaultdict]s of booleans, indexed
    [cells[r][q]]. A row is an object of the heap that the outer object
    refers to: what a read or a write does to the row is seen through
    [cells], so the updated row is stored back. *)
Abbreviation cells_t := (gmap Z (gmap Z bool)).

(** [cells[r][q]] as an expression: the value and [cells] after the read. *)
Definition cells_get (cells : cells_t) (q r : Z) : bool * cells_t :=
  let '(row, cells1) := dd_get ∅ cells r in
  let '(v, row') := dd_get false row q in
  (v, <[r := row']> cells1).

(** [cells[r][q] = v]: the row is read through the proxy, the property
    is set on it (the proxy has no [set] trap). *)
Definition cells_set (cells : cells_t) (q r : Z) (v : bool) : cells_t :=
  let '(row, cells1) := dd_get ∅ cells r in
  <[r := <[q := v]> row]> cells1.

(** What is stored for a cell, without the proxy. *)
Definition cell_value (cells : cells_t) (c : axial) : option bool :=
  cells !! c.2 ≫= (.!! c.1).

Definition is_open (cells : cells_t) (c : axial) : Prop :=
  cell_value cells c = Some true.

(** *** [generate_random_walk]

    The generator object: the local variables that live across a [yield],
    [at] (a keyword here, hence [at_]) and [stack]. The head of [stack] is
    the top of the JavaScript array ([push] and [pop] work at its end).
    [radius] does not change and [cells] is shared with the caller: both
    are given again at each pull. *)
Record walk_state : Type := WalkState { at_ : axial; stack : list axial }.

Definition generate_random_walk (start : axial) : walk_state :=
  {| at_ := start; stack := [start] |}.

(** The [for] loop over the shuffled directions: [Some c] when the loop
    reaches [yield] with the cell [c], [None] when it runs to its end. *)
Fixpoint scan (fuel : nat) (radius : Z) (cur : axial) (ds : list axial)
  (cells : cells_t) : option (option axial * cells_t) :=
  match ds with
  | [] => Some (None, cells)
  | direction :: ds' =>
      match wrap fuel radius (add cur direction) with
      | None => None
      | Some (q, r) =>
          let '(v, cells') := cells_get cells q r in
          if negb v then Some (Some (q, r), cells')
          else scan fuel radius cur ds' cells'
      end
  end.

(** The [while] loop from its head to the next [yield] or to its exit.
    Every turn that does not yield pops the stack. *)
Fixpoint walk_loop (fuel : nat) (radius : Z) (cur : axial)
  (stack : list axial) (cells : cells_t) (g : oracle)
  : option (option axial * walk_state * cells_t * oracle) :=
  match stack with
  | [] => Some (None, {| at_ := cur; stack := [] |}, cells, g)
  | top :: rest =>
      let '(ds, g') := shuffled directions g in
      match scan fuel radius cur ds cells with
      | None => None
      | Some (Some c, cells') =>
          Some (Some c, {| at_ := c; stack := c :: top :: rest |}, cells', g')
      | Some (None, cells') => walk_loop fuel radius top rest cells' g'
      end
  end.

(** One [next()] of the generator: the cell it yields, or [None] when it
    is done. *)
Definition walk_next (fuel : nat) (radius : Z) (st : walk_state)
  (cells : cells_t) (g : oracle)
  : option (option axial * walk_state * cells_t * oracle) :=
  walk_loop fuel radius (at_ st) (stack st) cells g.

(** *** The pixel plane *)
Definition AXIAL_TO_PIXEL : list (list float) :=
  [ [ 3 / 2; 0 ]; [ sqrt 3 / 2; sqrt 3 ] ]%float.

Definition PIXEL_TO_AXIAL : list (list float) :=
  [ [ 2 / 3; 0 ]; [ -1 / 3; sqrt 3 / 3 ] ]%float.

Definition axial_to_pixel (c : float * float) (size : float) : list float :=
  let '(q, r) := c in
  map (fun t => (t * size)%float) (concat (matmul AXIAL_TO_PIXEL [ [q]; [r] ])).

(** [Math.round]: the nearest integral number, a tie going up. Below
    [2^52] in absolute value, adding and subtracting [2^52] gives the
    nearest integer with ties to even, from which [x] differs exactly. A
    zero that comes from a negative number, or from [-0], is [-0]. *)
Definition Math_round (x : float) : float :=
  if is_nan x then nan
  else if (abs x <? 0x1p52)%float then
    let t := if (0 <=? x)%float then (x + 0x1p52 - 0x1p52)%float
             else (x - 0x1p52 + 0x1p52)%float in
    let res := if (x - t =? 0.5)%float then (t + 1)%float else t in
    if is_zero res && get_sign x then neg_zero else res
  else x.

(** The integer part of a number, [0] for [NaN] and the infinities. *)
Definition trunc (x : float) : Z :=
  match Prim2SF x with
  | S754_finite s m e =>
      let v := if 0 <=? e then Z.pos m * 2 ^ e else Z.pos m / 2 ^ (- e) in
      if s then - v else v
  | _ => 0
  end.

(** [x | 0]. *)
Definition or0 (x : float) : Z := to_int32 (trunc x).

(** An integer (below [2^53] in absolute value) as a number. *)
Definition of_Z (z : Z) : float :=
  if z <? 0 then (- of_uint63 (Uint63.of_Z (- z)))%float
  else of_uint63 (Uint63.of_Z z).

(** [pixel_to_axial], up to the rounding: the fractional [[q_, r_]]. *)
Definition pixel_to_fractional (p : float * float) (size : float) : list float :=
  let '(x, y) := p in
  map (fun t => (t / size)%float) (concat (matmul PIXEL_TO_AXIAL [ [x]; [y] ])).

Definition pixel_to_axial (p : float * float) (size : float) : axial :=
  match pixel_to_fractional p size with
  | [ q_; r_ ] =>
      let s_ := (- q_ - r_)%float in
      let q := or0 (Math_round q_) in
      let r := or0 (Math_round r_) in
      let s := or0 (Math_round s_) in
      let qDiff := abs (of_Z q - q_) in
      let rDiff := abs (of_Z r - r_) in
      let sDiff := abs (of_Z s - s_) in
      if (rDiff <? qDiff)%float && (sDiff <? qDiff)%float then (- r - s, r)
      else if (qDiff <? rDiff)%float && (sDiff <? rDiff)%float then (q, - q - s)
      else (q, r)
  | _ => (0, 0)
  end.

End Hexagons.

(** ** app.mjs *)
Module App.
Import Util Hexagons.

(** The step budget [0.4 * area(radius)] is a number with a fraction. It is
    kept exact here, as a rational, where the source has the nearest
    double; the fraction is .4, .6 or .8, far enough from an integer for
    the two to agree on which of [n], [n - 1], ... are positive, as long
    as the double is less than .2 away from the product: up to a radius
    of [2^20] by far. (From a radius of about [5.5e7] on the double is an
    integer.) *)
Definition steps (radius : Z) : Q := 0.4 * inject_Z (area radius).

(** [n > 0]. *)
Definition Qpositive (n : Q) : bool := 0 <? Qnum n.

(** [take(iterator, n)] over the walk: one [next()] of
    [take_while(iterator, (_) => n-- > 0)]. It pulls from the walk first
    and asks the predicate after; on [break] the walk is closed. *)
Definition take_next (fuel : nat) (radius : Z) (st : walk_state) (n : Q)
  (cells : cells_t) (g : oracle)
  : option (option axial * walk_state * Q * cells_t * oracle) :=
  match walk_next fuel radius st cells g with
  | None => None
  | Some (None, st', cells', g') => Some (None, st', n, cells', g')
  | Some (Some value, st', cells', g') =>
      if Qpositive n then Some (Some value, st', (n - 1)%Q, cells', g')
      else Some (None, st', (n - 1)%Q, cells', g')
  end.

(** The [for] loop of [generateWorld]. [marked] is a ghost: the cells the
    body ran on, the latest first. *)
Fixpoint world_loop (fuel turns : nat) (radius : Z) (st : walk_state) (n : Q)
  (cells : cells_t) (g : oracle) (marked : list axial)
  : option (cells_t * list axial) :=
  match turns with
  | O => None
  | S turns' =>
      match take_next fuel radius st n cells g with
      | None => None
      | Some (None, _, _, cells', _) => Some (cells', marked)
      | Some (Some (q, r), st', n', cells', g') =>
          world_loop fuel turns' radius st' n' (cells_set cells' q r true) g'
            ((q, r) :: marked)
      end
  end.

(** [generateWorld(radius)] with its ghost. The second pair of loops only
    builds arrays that are dropped; it does not touch [cells]. *)
Definition generateWorld_marked (fuel : nat) (radius : Z) (g : oracle)
  : option (cells_t * list axial) :=
  world_loop fuel fuel radius (generate_random_walk (0, 0)) (steps radius) ∅ g [].

Definition generateWorld (fuel : nat) (radius : Z) (g : oracle) : option cells_t :=
  fst <$> generateWorld_marked fuel radius g.

End App.

Import Util Hexagons App.

(** ** Connectivity of the open cells

    A cell is reachable when a path leads to it from the seed, the origin,
    whose cells after the seed are all open and whose consecutive cells
    are related by [step]. *)
Inductive reachable (step : axial -> axial -> Prop) (cells : cells_t)
  : axial -> Prop :=
| reach_seed : reachable step cells origin
| reach_step a b :
    reachable step cells a -> step a b -> is_open cells b ->
    reachable step cells b.

(** Adjacency on the grid: two cells one apart. *)
Definition adjacent (a b : axial) : Prop := distance a b = 1.

(** Adjacency as the walk steps: one direction, then [wrap]. *)
Definition wrapped_step (radius : Z) (a b : axial) : Prop :=
  exists (d : axial) (fuel : nat),
    d ∈ directions /\ wrap fuel radius (add a d) = Some b.

(** ** Specifications of the loops

    What the proofs below say of each loop, as predicates over what it is
    given and what it returns. *)

(** The step of [argmax]'s [reduce]. *)
Definition argmax_step (max : option nat * option Z) (ix : nat * Z)
  : option nat * option Z :=
  if gt_acc ix.2 max.2 then (Some ix.1, Some ix.2) else max.

(** What the loop over the directions found: a wrapped neighbour of [cur]
    whose cell read as [false], every one before it in [ds] being open; or
    no such neighbour, and then the map is as it was. *)
Definition scan_post (fuel : nat) (radius : Z) (cur : axial) (ds : list axial)
  (cells : cells_t) (res : option axial) (cells' : cells_t) : Prop :=
  match res with
  | Some c =>
      (exists d, d ∈ ds /\ wrap fuel radius (add cur d) = Some c) /\
      default false (cell_value cells c) = false /\
      cells' = (cells_get cells c.1 c.2).2
  | None =>
      cells' = cells /\
      forall d, d ∈ ds ->
                exists c, wrap fuel radius (add cur d) = Some c /\ is_open cells c
  end.

(** What one [next()] did: it yielded a wrapped neighbour of the current
    cell or of a cell of the stack, and pushed it; or the stack is empty. *)
Definition walk_post (fuel : nat) (radius : Z) (cur : axial)
  (stack0 : list axial) (cells : cells_t)
  (y : option axial) (st' : walk_state) (cells' : cells_t) : Prop :=
  match y with
  | Some c =>
      (exists from d, (from = cur \/ from ∈ stack0) /\ d ∈ directions /\
                      wrap fuel radius (add from d) = Some c) /\
      default false (cell_value cells c) = false /\
      cells' = (cells_get cells c.1 c.2).2 /\
      at_ st' = c /\
      exists rest, stack st' = c :: rest /\ rest ⊆ stack0
  | None => cells' = cells /\ stack st' = []
  end.

(** A cell the walk may stand on: in the region, and reachable. *)
Definition good (radius : Z) (cells : cells_t) (c : axial) : Prop :=
  distance c origin <= radius /\ reachable (wrapped_step radius) cells c.

(** The invariant of the loop of [generateWorld], between two turns. *)
Record world_inv (radius : Z) (st : walk_state) (cells : cells_t)
  (marked : list axial) : Prop := {
  inv_marked : forall c, c ∈ marked <-> is_open cells c;
  inv_nodup : NoDup marked;
  inv_open : forall c, is_open cells c -> good radius cells c;
  inv_at : good radius cells (at_ st);
  inv_stack : forall c, c ∈ stack st -> good radius cells c;
  inv_entries : forall c, cell_value cells c <> Some false;
}.

(** The number of cells of a list, as a rational. *)
Definition Qlen (l : list axial) : Q := inject_Z (Z.of_nat (length l)).

(** What the loop of [generateWorld] returns, entered with the budget [n]:
    the cells marked are the open cells; fewer than [n + 1] were added;
    and [n] at least were added, unless the walk ended by itself, which
    leaves no entry [false] in the map. *)
Definition world_post (radius : Z) (cells : cells_t) (marked : list axial)
  (n : Q) (cells' : cells_t) (marked' : list axial) : Prop :=
  (forall c, c ∈ marked' <-> is_open cells' c) /\
  NoDup marked' /\
  (forall c, is_open cells' c -> good radius cells' c) /\
  (marked' = marked \/ (Qlen marked' < Qlen marked + n + 1)%Q) /\
  ((forall c, cell_value cells' c <> Some false) \/
   (Qlen marked + n <= Qlen marked')%Q).

(** ** Scenarios *)

(** The oracle whose shuffles leave the directions in their order. *)
Definition zeros : oracle := fun _ => O.

(** The oracle that puts the direction (-1, 0) first in the fourth and in
    the seventh shuffle (five draws each), and leaves the others alone. *)
Definition detour : oracle :=
  fun k => if (k =? 15)%nat || (k =? 30)%nat then 5%nat else O.

(** The map that [generateWorld] builds for the radius 2 with [detour]:
    eight open cells, and the cell (-1, -1) that the last pull left closed. *)
Definition detour_cells : cells_t :=
  list_to_map
    [ (2, {[ 0 := true ]});
      (1, list_to_map [ (0, true); (1, true) ]);
      (0, list_to_map [ (-2, true); (1, true); (2, true) ]);
      (-1, list_to_map [ (2, true); (-1, false) ]);
      (-2, {[ 2 := true ]}) ].

(** A map in which the six cells around (0, 1) in the region of radius 2
    are open, the origin among them. *)
Definition boxed_cells : cells_t :=
  foldr (fun c cells => cells_set cells c.1 c.2 true) ∅
        [ (0, 2); (0, 0); (-1, 2); (1, 0); (1, 1); (-1, 1) ].

(** ** Numbers

    The coordinates, radii and counts of the code are JavaScript numbers,
    doubles. The definitions above take them as integers and add, subtract
    and compare them exactly; the code does the same as long as every value
    it forms is an integer of at most [2^53] in absolute value, which a
    double holds exactly. An argument that is [small] leaves room for the
    sums of a few of them. Beyond that the code rounds: [Binary64] has the
    same functions on doubles, for what they do there. *)
Definition small (x : Z) : Prop := - 2 ^ 50 <= x <= 2 ^ 50.

Definition small_cell (c : axial) : Prop := small c.1 /\ small c.2.

(** *** The functions on doubles *)
Module Binary64.

(** A coordinate as the code holds it: two doubles. *)
Definition cell : Type := float * float.

(** [Math.max] of two numbers. *)
Definition Math_max (x y : float) : float :=
  if is_nan x || is_nan y then nan
  else if (x <? y)%float then y
  else if (y <? x)%float then x
  else if get_sign x then y else x.

(** [argmax(array)]: [reduce] from [[undefined, -Infinity]], with [>] on
    doubles. *)
Definition argmax (array : list float) : option nat * float :=
  fold_left
    (fun max ix => if (max.2 <? ix.2)%float then (Some ix.1, ix.2) else max)
    (combine (seq 0 (length array)) array)
    (None, neg_infinity).

Definition max_by {A} (array : list A) (key : A -> float) : option A :=
  match (argmax (map key array)).1 with
  | Some index => array !! index
  | None => None
  end.

Definition min_by {A} (array : list A) (key : A -> float) : option A :=
  max_by array (fun x => (- key x)%float).

(** [lerp(t, a, b)], [random(a, b)] and [randint(a, b)] for the draw [t]
    that [Math.random()] returns, a double of [[0, 1)]. *)
Definition lerp (t a b : float) : float := (a + (b - a) * t)%float.

Definition random (a b t : float) : float := lerp t a b.

Definition randint (a b : nat) (t : float) : Z :=
  or0 (random (of_Z (Z.of_nat a)) (of_Z (Z.of_nat b)) t).

(** [array_[k] = v] on an array whose entries may be [undefined], here
    [None]: a write past the end makes the array longer, the entries in
    between being holes, which read as [undefined]. *)
Definition write {A} (array_ : list (option A)) (k : nat) (v : option A)
  : list (option A) :=
  if (k <? length array_)%nat then <[k := v]> array_
  else array_ ++ replicate (k - length array_) None ++ [v].

(** [[array_[i], array_[j]] = [array_[j], array_[i]]]: both reads (a read
    past the end is [undefined]), then the write at [i], then the write
    at [j]. *)
Definition swap {A} (array_ : list (option A)) (i j : nat) : list (option A) :=
  let x := mjoin (array_ !! i) in
  let y := mjoin (array_ !! j) in
  write (write array_ i y) j x.

(** The loop of [shuffled] over the indices that are left, the [k]-th call
    of [Math.random] returning [draws k]. *)
Fixpoint shuffle_from {A} (indices : list nat) (array_ : list (option A))
  (draws : nat -> float) : list (option A) * (nat -> float) :=
  match indices with
  | [] => (array_, draws)
  | i :: indices' =>
      let j := Z.to_nat (randint i (length array_) (draws O)) in
      shuffle_from indices' (swap array_ i j) (fun k => draws (S k))
  end.

Definition shuffled {A} (array : list A) (draws : nat -> float)
  : list (option A) * (nat -> float) :=
  shuffle_from (range (length array - 1)) (map Some array) draws.

Definition anticlockwise (c : cell) : cell :=
  let '(q, r) := c in
  let s := (- q - r)%float in
  (- s, - q)%float.

Definition rotation (qr : cell) (t : nat) : cell :=
  fold_left (fun acc _ => anticlockwise acc) (range t) qr.

Definition distance (a b : cell) : float :=
  let '(Aq, Ar) := a in
  let '(Bq, Br) := b in
  let As := (- Aq - Ar)%float in
  let Bs := (- Bq - Br)%float in
  Math_max (Math_max (abs (Aq - Bq)) (abs (Ar - Br))) (abs (As - Bs)).

(** [x >> 1] is an integer of 32 bits, added to [y] as a double. *)
Definition odd_q_to_axial (c : cell) : cell :=
  let '(x, y) := c in (x, y - of_Z (sar (trunc x) 1))%float.

Definition axial_to_odd_q (c : cell) : cell :=
  let '(x, y) := c in (x, y + of_Z (sar (trunc x) 1))%float.

(** [r ** 2] is [r * r]: the square of an integer, as long as a double
    holds it. *)
Definition area (r : float) : float := (3 * (r * r) + 3 * r + 1)%float.

(** [0.4 * area(radius)]; [0.4] is the double nearest to it. *)
Definition steps (radius : float) : float :=
  (0x1.999999999999ap-2 * area radius)%float.

Definition centers (radius : float) : list cell :=
  map (fun t => rotation (radius, radius + 1)%float t) (range 6).

Inductive wrap_step : Type :=
| Return (c : cell)
| Recurse (c : cell)
| Throw.

Definition wrap_call (radius : float) (c : cell) : wrap_step :=
  let '(q, r) := c in
  if (distance (q, r) (0, 0) <=? radius)%float then Return (q, r)
  else
    match min_by (centers radius) (distance (q, r)) with
    | Some (dq, dr) => Recurse (q - dq, r - dr)%float
    | None => Throw
    end.

Fixpoint wrap (fuel : nat) (radius : float) (c : cell) : option cell :=
  match fuel with
  | O => None
  | S fuel' =>
      match wrap_call radius c with
      | Return c' => Some c'
      | Recurse c' => wrap fuel' radius c'
      | Throw => None
      end
  end.

End Binary64.

(** An integer coordinate as the code holds it. *)
Definition cell_of (c : axial) : Binary64.cell := (of_Z c.1, of_Z c.2).

Definition step_of (s : wrap_step) : Binary64.wrap_step :=
  match s with
  | Return c => Binary64.Return (cell_of c)
  | Recurse c => Binary64.Recurse (cell_of c)
  | Throw => Binary64.Throw
  end.

(** [==] on coordinates and on what a call of [wrap] does. *)
Definition same_cell (a b : Binary64.cell) : bool :=
  PrimFloat.eqb a.1 b.1 && PrimFloat.eqb a.2 b.2.

Definition same_step (a b : Binary64.wrap_step) : bool :=
  match a, b with
  | Binary64.Return c, Binary64.Return d => same_cell c d
  | Binary64.Recurse c, Binary64.Recurse d => same_cell c d
  | Binary64.Throw, Binary64.Throw => true
  | _, _ => false
  end.

(** Integers at and near the bounds of [small], with a few in between. *)
Definition extremes : list Z :=
  [ - 2 ^ 50; - 2 ^ 50 + 1; - 2 ^ 49 - 1; - 2 ^ 25; -3; -1; 0; 1; 2;
    2 ^ 25 + 1; 2 ^ 49; 2 ^ 50 - 1; 2 ^ 50 ].

Definition bounds : list Z := [ - 2 ^ 50; - 2 ^ 49 - 1; -1; 0; 3; 2 ^ 50 - 1; 2 ^ 50 ].

(** ** How the loop of [generateWorld] ends

    The [for] loop ends when the generator that [take] returns is done:
    because the walk is done, or because the predicate of [take] said no
    to a cell the walk had yielded. *)
Inductive ending : Type :=
| WalkDone
| BudgetSpent.

(** [world_loop] with two more ghosts: how the loop ended, and the state
    of the walk after its last [next()]. *)
Fixpoint world_loop_ending (fuel turns : nat) (radius : Z) (st : walk_state)
  (n : Q) (cells : cells_t) (g : oracle) (marked : list axial)
  : option (cells_t * list axial * ending * walk_state) :=
  match turns with
  | O => None
  | S turns' =>
      match walk_next fuel radius st cells g with
      | None => None
      | Some (None, st', cells', _) => Some (cells', marked, WalkDone, st')
      | Some (Some (q, r), st', cells', g') =>
          if Qpositive n
          then world_loop_ending fuel turns' radius st' (n - 1)%Q
                 (cells_set cells' q r true) g' ((q, r) :: marked)
          else Some (cells', marked, BudgetSpent, st')
      end
  end.

Definition generateWorld_ending (fuel : nat) (radius : Z) (g : oracle)
  : option (cells_t * list axial * ending * walk_state) :=
  world_loop_ending fuel fuel radius (generate_random_walk (0, 0)) (steps radius)
    ∅ g [].

(** * The rest of the code

    The functions of the three files that the walk does not go through,
    with the same conventions, and the vocabulary of what is proved of
    them. *)

(** ** util.mjs, the other helpers *)
Module UtilMore.

(** [[...range2(start, stop, step)]] for integers: the values the generator
    yields, when the loop ends within [fuel] turns. [start += step] is
    exact as long as it is at most [2^53] in absolute value. *)
Fixpoint range2 (fuel : nat) (start stop step : Z) : option (list Z) :=
  match fuel with
  | O => None
  | S fuel' =>
      if start <? stop
      then cons start <$> range2 fuel' (start + step) stop step
      else Some []
  end.

(** [take_while(iterator, predicate)] over an array, for a predicate
    without state. *)
Fixpoint take_while {A} (iterator : list A) (predicate : A -> bool) : list A :=
  match iterator with
  | [] => []
  | value :: rest =>
      if predicate value then value :: take_while rest predicate else []
  end.

(** [take(iterator, n)] over an array: [take_while] with the predicate
    [n-- > 0], which counts down at each value it is asked about. *)
Fixpoint take {A} (iterator : list A) (n : Q) : list A :=
  match iterator with
  | [] => []
  | value :: rest =>
      if Qpositive n then value :: take rest (n - 1)%Q else []
  end.

(** [skip(iterator, n)] over an array: a value is yielded when [n-- <= 0]. *)
Fixpoint skip {A} (iterator : list A) (n : Q) : list A :=
  match iterator with
  | [] => []
  | value :: rest =>
      if Qpositive n then skip rest (n - 1)%Q else value :: skip rest (n - 1)%Q
  end.

(** [array.slice(start, end)] for integer bounds: a negative bound counts
    from the end, and both are clipped to the array. *)
Definition slice {A} (array : list A) (start end_ : Z) : list A :=
  let len := Z.of_nat (length array) in
  let k := if start <? 0 then Z.max (len + start) 0 else Z.min start len in
  let final := if end_ <? 0 then Z.max (len + end_) 0 else Z.min end_ len in
  firstn (Z.to_nat (final - k)) (skipn (Z.to_nat k) array).

(** [[...chunks(array, n)]], the loop entered with the index [i]. *)
Fixpoint chunks_from {A} (fuel : nat) (array : list A) (n i : Z)
  : option (list (list A)) :=
  match fuel with
  | O => None
  | S fuel' =>
      if i <? Z.of_nat (length array)
      then cons (slice array i (i + n)) <$> chunks_from fuel' array n (i + n)
      else Some []
  end.

(** [[...chunks(array, n)]]. *)
Definition chunks {A} (fuel : nat) (array : list A) (n : Z)
  : option (list (list A)) :=
  chunks_from fuel array n 0.

(** [x % y] on integers: the remainder has the sign of [x]; it is [NaN],
    here [None], when [y] is 0. *)
Definition rem (x y : Z) : option Z :=
  if y =? 0 then None else Some (Z.rem x y).

(** [mod(x, y)]: [((x % y) + y) % y]; the sum is exact as long as it is at
    most [2^53] in absolute value. *)
Definition mod_ (x y : Z) : option Z :=
  r ← rem x y; rem (r + y) y.

(** [clamp(n, min, max)] on integers. *)
Definition clamp (n min max : Z) : Z := Z.min (Z.max n min) max.

(** [mode(it)] over integers. [frequencies] is an object whose property
    names are the entries; an entry counts from 0. In [max_by] every
    [frequencies[n]] is defined, [n] being an entry. *)
Definition mode (it : list Z) : option Z :=
  let elements := it in
  let frequencies : gmap Z Z :=
    fold_left
      (fun frequencies entry =>
         match frequencies !! entry with
         | Some c => <[entry := c + 1]> frequencies
         | None => <[entry := 0]> frequencies
         end)
      elements ∅ in
  max_by elements (fun n => default 0 (frequencies !! n)).

(** [extent(array)] over integers: [None] is [Infinity] in the first
    component and [-Infinity] in the second. *)
Definition extent (array : list Z) : option Z * option Z :=
  fold_left
    (fun mm x =>
       (Some (match mm.1 with Some m => Z.min m x | None => x end),
        Some (match mm.2 with Some m => Z.max m x | None => x end)))
    array (None, None).


(** [cartesian(left, right)]. *)
Definition cartesian {A B} (left : list A) (right : list B) : list (A * B) :=
  flat_map (fun p => map (fun q => (p, q)) right) left.

(** [array.flatMap(f)] from the position [index] on, for an [f] that may
    run out of fuel. *)
Fixpoint flat_map_from {A B} (f : nat -> A -> option (list B)) (index : nat)
  (array : list A) : option (list B) :=
  match array with
  | [] => Some []
  | first :: rest =>
      match f index first with
      | Some here =>
          match flat_map_from f (S index) rest with
          | Some there => Some (here ++ there)
          | None => None
          end
      | None => None
      end
  end.

(** [combinations(elements, n)]: [None] when the calls nest deeper than
    [fuel]. *)
Fixpoint combinations {A} (fuel : nat) (elements : list A) (n : Z)
  : option (list (list A)) :=
  match fuel with
  | O => None
  | S fuel' =>
      if n =? 1 then Some (map (fun e => [e]) elements)
      else
        flat_map_from
          (fun index first =>
             match combinations fuel' (drop (S index) elements) (n - 1) with
             | Some partials => Some (map (fun partial => first :: partial) partials)
             | None => None
             end)
          O elements
  end.

End UtilMore.

(** ** app.mjs, the canvas *)
Module AppMore.
Import UtilMore.

(** [#fillAt]: the index into the colour scheme for the cell [{q, r}] of
    the canvas, and the map after the read. [cells[q_][r_]] reads the row
    [q_] at the column [r_], which is [cells_get cells r_ q_]; [true | 0]
    is 1 and [false | 0] is 0. *)
Definition fillAt (fuel : nat) (radius : Z) (cells : cells_t) (c : axial)
  : option (Z * cells_t) :=
  match wrap fuel radius c with
  | Some (q_, r_) =>
      let '(v, cells') := cells_get cells r_ q_ in
      Some (if v then 1 else 0, cells')
  | None => None
  end.

(** [Map.#draw], the cells it paints, in their order: the window in
    offset coordinates from the corners of the canvas, one column and one
    row more on each side, and the two loops over it. *)
Definition draw (fuel : nat) (left top width height scale : float)
  : option (list axial) :=
  let right := (left + width)%float in
  let bottom := (top + height)%float in
  let '(left_, top_) := axial_to_odd_q (pixel_to_axial (left, top) scale) in
  let '(right_, bottom_) := axial_to_odd_q (pixel_to_axial (right, bottom) scale) in
  xs ← range2 fuel (left_ - 1) (right_ + 2) 1;
  flat_map_from
    (fun _ x =>
       ys ← range2 fuel (top_ - 1) (bottom_ + 2) 1;
       Some (map (fun y => odd_q_to_axial (x, y)) ys))
    O xs.

End AppMore.

Import UtilMore AppMore.

(** ** Vocabulary of the rest *)

(** The lattice of the region centers: the integer combinations of the
    first two of them. *)
Definition lattice (radius : Z) (v : axial) : Prop :=
  exists m n : Z,
    v = (m * radius + n * (2 * radius + 1), m * (radius + 1) - n * radius).

(** Two coordinates that differ by a vector of the lattice. *)
Definition equivalent (radius : Z) (a b : axial) : Prop :=
  lattice radius (a.1 - b.1, a.2 - b.2).

(** The [n] integers from [a] on. *)
Definition zrange (a : Z) (n : nat) : list Z :=
  map (fun k => a + Z.of_nat k) (seq 0 n).

(** The cells of the region of a radius, column by column: the column [q]
    holds the [2 * radius + 1 - |q|] cells from [max (-radius, -radius - q)]
    on. *)
Definition region (radius : Z) : list axial :=
  zrange (- radius) (Z.to_nat (2 * radius + 1)) ≫= fun q =>
    map (fun r => (q, r))
      (zrange (Z.max (- radius) (- radius - q))
         (Z.to_nat (2 * radius + 1 - Z.abs q))).

(** The sum of a list of integers. *)
Definition zsum (l : list Z) : Z := fold_right Z.add 0 l.

(** The step of the loop that counts the entries. *)
Definition count_step (frequencies : gmap Z Z) (entry : Z) : gmap Z Z :=
  match frequencies !! entry with
  | Some c => <[entry := c + 1]> frequencies
  | None => <[entry := 0]> frequencies
  end.

(** The sublists of [l] of [n] entries, those with the first entry of [l]
    first. *)
Fixpoint sublists {A} (n : nat) (l : list A) : list (list A) :=
  match n, l with
  | O, _ => [ [] ]
  | S _, [] => []
  | S k, x :: r => map (fun c => x :: c) (sublists k r) ++ sublists n r
  end.

(** What [combinations] returns. *)
Definition combinations_of {A} (elements : list A) (n : Z) : list (list A) :=
  if n <? 1 then [] else sublists (Z.to_nat n) elements.

(** A matrix of [m] rows of [n] entries each. *)
Definition rectangular (m n : nat) (matrix : list (list float)) : Prop :=
  length matrix = m /\ forall row, row ∈ matrix -> length row = n.

(** A number that is an infinity or no number. *)
Definition unbounded (t : float) : Prop :=
  t = infinity \/ t = neg_infinity \/ t = nan.

(** A pixel from the array that holds it. *)
Definition as_pixel (p : list float) : float * float :=
  (nth 0 p nan, nth 1 p nan).

(** Whether the center of a cell is a pixel of the cell, at a size. *)
Definition center_round_trip (size : float) (c : axial) : bool :=
  bool_decide
    (pixel_to_axial (as_pixel (axial_to_pixel (of_Z c.1, of_Z c.2) size)) size = c).

(** * Proofs *)

(** ** Selection by key *)
Section Selection.

Lemma gt_acc_trans x y m :
  gt_acc y m = false -> x <= y -> gt_acc x m = false.
Proof.
  destruct m as [m|]; simpl; [|discriminate].
  rewrite !Z.ltb_ge. lia.
Qed.

Lemma argmax_fold (l : list Z) : forall (k : nat) (acc : option nat * option Z),
  let res := fold_left argmax_step (combine (seq k (length l)) l) acc in
  (forall x, x ∈ l -> gt_acc x res.2 = false) /\
  (forall x, gt_acc x acc.2 = false -> gt_acc x res.2 = false) /\
  (res = acc \/ exists i x, l !! i = Some x /\ res = (Some (k + i)%nat, Some x)).
Proof.
  induction l as [|a l IH]; intros k acc; simpl.
  - split; [|split]; [intros x Hx; inversion Hx | auto | auto].
  - destruct (IH (S k) (argmax_step acc (k, a))) as (Hall & Hmono & Hres).
    assert (Ha : gt_acc a (argmax_step acc (k, a)).2 = false).
    { unfold argmax_step. simpl. destruct (gt_acc a acc.2) eqn:E; simpl; [|done].
      apply Z.ltb_irrefl. }
    assert (Hacc : forall x, gt_acc x acc.2 = false ->
                             gt_acc x (argmax_step acc (k, a)).2 = false).
    { intros x Hx. unfold argmax_step. simpl.
      destruct (gt_acc a acc.2) eqn:E; simpl; [|done].
      destruct (acc.2) as [m|]; simpl in *; [|discriminate].
      rewrite Z.ltb_ge in Hx. rewrite Z.ltb_lt in E. rewrite Z.ltb_ge. lia. }
    split; [|split].
    + intros x Hx. apply elem_of_cons in Hx as [->|Hx]; auto.
    + auto.
    + destruct Hres as [Hres|(i & x & Hi & Hres)].
      * rewrite Hres. unfold argmax_step. simpl.
        destruct (gt_acc a acc.2); [|by left].
        right. exists O, a. split; [done|]. by rewrite Nat.add_0_r.
      * right. exists (S i), x. split; [done|].
        rewrite Hres. do 2 f_equal. lia.
Qed.

Lemma max_by_spec {A} (array : list A) (key : A -> Z) :
  array <> [] ->
  exists x, max_by array key = Some x /\ x ∈ array /\
            forall y, y ∈ array -> key y <= key x.
Proof.
  intros Hne. unfold max_by, argmax.
  destruct (argmax_fold (map key array) O (None, None)) as (Hall & _ & Hres).
  fold argmax_step in *. cbv zeta in *.
  set (res := fold_left argmax_step _ _) in *.
  destruct Hres as [Hres|(i & m & Hi & Hres)].
  - exfalso. destruct array as [|a array]; [done|].
    specialize (Hall (key a)). rewrite Hres in Hall. simpl in Hall.
    discriminate Hall. left.
  - rewrite Hres. simpl. rewrite list_lookup_fmap in Hi.
    destruct (array !! i) as [x|] eqn:Hx; [|discriminate]. simpl in Hi.
    injection Hi as Hi. exists x. split; [done|]. split.
    + by eapply list_elem_of_lookup_2.
    + intros y Hy. specialize (Hall (key y)). rewrite Hres in Hall. simpl in Hall.
      rewrite Hi. apply Z.ltb_ge, Hall. by apply list_elem_of_fmap_2.
Qed.

Lemma min_by_spec {A} (array : list A) (key : A -> Z) :
  array <> [] ->
  exists x, min_by array key = Some x /\ x ∈ array /\
            forall y, y ∈ array -> key x <= key y.
Proof.
  intros Hne. unfold min_by.
  destruct (max_by_spec array (fun x => - key x) Hne) as (x & Hx & Hin & Hmax).
  exists x. split; [done|]. split; [done|].
  intros y Hy. specialize (Hmax y Hy). simpl in Hmax. lia.
Qed.

End Selection.

(** ** The boundary folder *)
Section Wrap.

Lemma centers_eq radius :
  centers radius =
    [ (radius, radius + 1); (2 * radius + 1, - radius);
      (radius + 1, - (2 * radius + 1)); (- radius, - (radius + 1));
      (- (2 * radius + 1), radius); (- (radius + 1), 2 * radius + 1) ].
Proof.
  unfold centers, rotation, range. cbn [seq map fold_left anticlockwise].
  repeat (f_equal; try lia).
Qed.

Lemma distance_nonneg a b : 0 <= distance a b.
Proof. destruct a, b. unfold distance. lia. Qed.

Lemma distance_sub c d :
  distance (c.1 - d.1, c.2 - d.2) origin = distance c d.
Proof. destruct c, d. unfold distance, origin. simpl. lia. Qed.

Tactic Notation "pick_center" integer(n) :=
  eexists; split;
  [ apply list_elem_of_In; simpl; do n right; left; reflexivity
  | cbv beta iota zeta; lia ].

(** Outside the region one of the six centers is nearer than the origin. *)
Lemma some_center_is_closer radius c :
  0 <= radius -> radius < distance c origin ->
  exists d, d ∈ centers radius /\ distance c d < distance c origin.
Proof.
  intros Hr Hd. rewrite centers_eq. destruct c as [q r].
  unfold distance, origin in *.
  destruct (Z.lt_trichotomy 0 r) as [Hr0|[Hr0|Hr0]];
  destruct (Z.lt_trichotomy 0 q) as [Hq0|[Hq0|Hq0]];
  destruct (Z.lt_trichotomy 0 (q + r)) as [Hs0|[Hs0|Hs0]];
  try lia;
  first [ pick_center 0 | pick_center 1 | pick_center 2
        | pick_center 3 | pick_center 4 | pick_center 5 ].
Qed.

(** [min_by] over the six centers is defined, whatever the radius. *)
Lemma min_by_centers radius (key : axial -> Z) :
  exists d, min_by (centers radius) key = Some d /\ d ∈ centers radius /\
            forall e, e ∈ centers radius -> key d <= key e.
Proof. apply min_by_spec. by rewrite centers_eq. Qed.

Lemma nearest_center_closer radius c :
  0 <= radius -> radius < distance c origin ->
  exists d, min_by (centers radius) (distance c) = Some d /\
            distance (c.1 - d.1, c.2 - d.2) origin < distance c origin.
Proof.
  intros Hr Hd.
  destruct (min_by_centers radius (distance c)) as (d & Hd1 & _ & Hmin).
  destruct (some_center_is_closer radius c Hr Hd) as (e & He & Hlt).
  exists d. split; [done|]. rewrite distance_sub. specialize (Hmin e He). lia.
Qed.

Lemma wrap_call_inside radius c :
  distance c origin <= radius -> wrap_call radius c = Return c.
Proof.
  intros H. destruct c as [q r]. unfold wrap_call.
  apply Z.leb_le in H. by rewrite H.
Qed.

Lemma wrap_call_outside radius c :
  radius < distance c origin ->
  exists d, min_by (centers radius) (distance c) = Some d /\
            wrap_call radius c = Recurse (c.1 - d.1, c.2 - d.2).
Proof.
  intros H. destruct (min_by_centers radius (distance c)) as (d & Hd & _).
  exists d. split; [done|]. destruct c as [q r]. unfold wrap_call.
  apply Z.leb_gt in H. rewrite H, Hd. by destruct d.
Qed.

Lemma wrap_inside fuel radius c :
  distance c origin <= radius -> wrap (S fuel) radius c = Some c.
Proof. intros H. simpl. by rewrite wrap_call_inside. Qed.

(** With a radius that is not negative, [wrap] returns, and returns a
    coordinate of the region, as soon as the fuel exceeds the distance
    that separates the argument from the region. *)
Lemma wrap_returns radius : 0 <= radius ->
  forall (fuel : nat) c, distance c origin - radius <= Z.of_nat fuel ->
  exists c', wrap (S fuel) radius c = Some c' /\ distance c' origin <= radius.
Proof.
  intros Hr. induction fuel as [|fuel IH]; intros c Hfuel.
  - exists c. split; [apply wrap_inside|]; lia.
  - destruct (Z_le_gt_dec (distance c origin) radius) as [Hin|Hout].
    + exists c. split; [apply wrap_inside|]; lia.
    + destruct (nearest_center_closer radius c Hr) as (d & Hd & Hlt); [lia|].
      destruct (wrap_call_outside radius c) as (d' & Hd' & Hcall); [lia|].
      rewrite Hd in Hd'. injection Hd' as <-.
      change (wrap (S (S fuel)) radius c)
        with (match wrap_call radius c with
              | Return c' => Some c'
              | Recurse c' => wrap (S fuel) radius c'
              | Throw => None
              end).
      rewrite Hcall. apply IH. lia.
Qed.

(** More fuel does not change what [wrap] returns. *)
Lemma wrap_fuel_mono radius c c' : forall fuel fuel' : nat,
  wrap fuel radius c = Some c' -> (fuel <= fuel')%nat ->
  wrap fuel' radius c = Some c'.
Proof.
  intros fuel. revert c. induction fuel as [|fuel IH]; intros c fuel' H Hle.
  - discriminate.
  - destruct fuel' as [|fuel']; [lia|]. simpl in *.
    destruct (wrap_call radius c); try done. apply IH; [done|lia].
Qed.

Lemma wrap_result_inside radius c' : forall (fuel : nat) c,
  wrap fuel radius c = Some c' -> distance c' origin <= radius.
Proof.
  induction fuel as [|fuel IH]; intros c H; [discriminate|].
  simpl in H. destruct c as [q r]. unfold wrap_call in H.
  destruct (distance (q, r) origin <=? radius) eqn:E.
  - injection H as <-. by apply Z.leb_le.
  - destruct (min_by _ _) as [[dq dr]|]; [|discriminate]. eauto.
Qed.



End Wrap.

(** C9, as the code has it. The offset and axial conversions are inverse
    to each other on the pairs of integers that are [small], where the
    sum [y + (x >> 1)] is exact; [axial_to_odd_q] sends (2, -1) to (2, 0),
    which [odd_q_to_axial] sends back. *)
Theorem offset_axial_inverse (q r : Z) :
  small q -> small r ->
  odd_q_to_axial (axial_to_odd_q (q, r)) = (q, r) /\
  axial_to_odd_q (odd_q_to_axial (q, r)) = (q, r) /\
  axial_to_odd_q (2, -1) = (2, 0) /\
  odd_q_to_axial (2, 0) = (2, -1).
Proof.
  intros _ _.
  unfold odd_q_to_axial, axial_to_odd_q.
  repeat split; try reflexivity; f_equal; lia.
Qed.

Lemma offset_axial_inverse_witness :
  odd_q_to_axial (axial_to_odd_q (-7, 4)) = (-7, 4) /\
  axial_to_odd_q (odd_q_to_axial (-7, 4)) = (-7, 4) /\
  axial_to_odd_q (2, -1) = (2, 0) /\
  odd_q_to_axial (2, 0) = (2, -1).
Proof. apply (offset_axial_inverse (-7) 4); unfold small; lia. Defined.

(** C9, against the claim. Beyond [2^53] the sum is rounded: the code
    sends the pair (5, 2^53 - 1) of integers to (5, 2^53) and back to
    (5, 2^53 - 2), and the pair (5, 1 - 2^53) to (5, 2 - 2^53) the other
    way round. *)
Lemma offset_round_trip_is_rounded :
  Binary64.axial_to_odd_q (cell_of (5, 2 ^ 53 - 1)) = cell_of (5, 2 ^ 53) /\
  Binary64.odd_q_to_axial (Binary64.axial_to_odd_q (cell_of (5, 2 ^ 53 - 1)))
  = cell_of (5, 2 ^ 53 - 2) /\
  Binary64.axial_to_odd_q (Binary64.odd_q_to_axial (cell_of (5, 1 - 2 ^ 53)))
  = cell_of (5, 2 - 2 ^ 53).
Proof. repeat split; vm_compute; reflexivity. Qed.

(** C1, as the code has it. With a radius that is not negative and a
    coordinate that are [small], [wrap] returns (given more fuel than the
    distance from the coordinate to the region), and what it returns is at
    most [radius] away from the origin. *)
Theorem wrap_lands_in_region (radius : Z) (c : axial) :
  0 <= radius -> small radius -> small_cell c ->
  exists c',
    (forall fuel : nat,
        (Z.to_nat (distance c origin - radius) < fuel)%nat ->
        wrap fuel radius c = Some c') /\
    distance c' origin <= radius.
Proof.
  intros Hr _ _.
  destruct (wrap_returns radius Hr (Z.to_nat (distance c origin - radius)) c)
    as (c' & Hc' & Hin); [lia|].
  exists c'. split; [|done].
  intros fuel Hfuel. eapply wrap_fuel_mono; [exact Hc'|lia].
Qed.

Lemma wrap_lands_in_region_witness :
  exists c',
    (forall fuel : nat,
        (Z.to_nat (distance (7, -3)%Z origin - 2) < fuel)%nat ->
        wrap fuel 2 (7, -3) = Some c') /\
    distance c' origin <= 2.
Proof. apply (wrap_lands_in_region 2 (7, -3)); unfold small_cell, small; simpl; lia. Defined.

(** C1, against the claim. For the radius 1 and the coordinate
    (2^60, 2^60) the code takes the center (1, 2) off a coordinate that
    the subtraction leaves as it is: the call calls itself on the same
    coordinate, and no amount of fuel gives a result. *)
Lemma wrap_repeats_on_a_large_coordinate :
  Binary64.wrap_call 1 (cell_of (2 ^ 60, 2 ^ 60))
  = Binary64.Recurse (cell_of (2 ^ 60, 2 ^ 60)) /\
  (forall fuel : nat, Binary64.wrap fuel 1 (cell_of (2 ^ 60, 2 ^ 60)) = None).
Proof.
  assert (H : Binary64.wrap_call 1 (cell_of (2 ^ 60, 2 ^ 60))
              = Binary64.Recurse (cell_of (2 ^ 60, 2 ^ 60)))
    by (vm_compute; reflexivity).
  split; [exact H|]. induction fuel as [|fuel IH]; [reflexivity|].
  cbn [Binary64.wrap]. rewrite H. exact IH.
Qed.

(** C5, as the code has it. With a radius that is not negative and a
    coordinate that are [small], taking the nearest center (the one
    [min_by] selects) off a coordinate that lies outside the region gives
    a coordinate strictly nearer to the origin; this is the argument of
    the recursive call, and so [wrap] returns. *)
Theorem fold_decreases_distance (radius : Z) (c : axial) :
  0 <= radius -> small radius -> small_cell c ->
  (radius < distance c origin ->
   exists d,
     min_by (centers radius) (distance c) = Some d /\
     (forall e, e ∈ centers radius -> distance c d <= distance c e) /\
     wrap_call radius c = Recurse (c.1 - d.1, c.2 - d.2) /\
     distance (c.1 - d.1, c.2 - d.2) origin < distance c origin) /\
  (exists c', wrap (S (Z.to_nat (distance c origin - radius))) radius c = Some c').
Proof.
  intros Hr _ _. split.
  - intros Hout.
    destruct (min_by_centers radius (distance c)) as (d & Hd & _ & Hmin).
    destruct (nearest_center_closer radius c Hr Hout) as (d' & Hd' & Hlt).
    destruct (wrap_call_outside radius c Hout) as (d'' & Hd'' & Hcall).
    rewrite Hd in Hd', Hd''. injection Hd' as <-. injection Hd'' as <-.
    exists d. auto.
  - destruct (wrap_returns radius Hr (Z.to_nat (distance c origin - radius)) c)
      as (c' & Hc' & _); [lia|]. eauto.
Qed.

Lemma fold_decreases_distance_witness :
  (1 < distance (0, 2) origin ->
   exists d,
     min_by (centers 1) (distance (0, 2)) = Some d /\
     (forall e, e ∈ centers 1 -> distance (0, 2) d <= distance (0, 2) e) /\
     wrap_call 1 (0, 2) = Recurse ((0, 2).1 - d.1, (0, 2).2 - d.2) /\
     distance ((0, 2).1 - d.1, (0, 2).2 - d.2) origin < distance (0, 2) origin) /\
  (exists c', wrap (S (Z.to_nat (distance (0, 2) origin - 1))) 1 (0, 2) = Some c').
Proof. apply (fold_decreases_distance 1 (0, 2)); unfold small_cell, small; simpl; lia. Defined.

(** C5, against the claim. For the radius 3 and the coordinate
    (-2^61, 2^60), which lies outside the region, the code selects the
    center (3, 4); the fold gives the same coordinate, at the same
    distance from the origin, not a smaller one. *)
Lemma fold_keeps_a_large_coordinate :
  PrimFloat.ltb 3 (Binary64.distance (cell_of (- 2 ^ 61, 2 ^ 60)) (0, 0)%float)
  = true /\
  Binary64.min_by (Binary64.centers 3) (Binary64.distance (cell_of (- 2 ^ 61, 2 ^ 60)))
  = Some (3, 4)%float /\
  Binary64.wrap_call 3 (cell_of (- 2 ^ 61, 2 ^ 60))
  = Binary64.Recurse (cell_of (- 2 ^ 61, 2 ^ 60)) /\
  (- 0x1p61 - 3, 0x1p60 - 4)%float = cell_of (- 2 ^ 61, 2 ^ 60).
Proof. repeat split; vm_compute; reflexivity. Qed.

(** C8, as the code has it. With a radius that is not negative and a
    coordinate that are [small], and enough fuel, [wrap] returns, applying
    it again to what it returned changes nothing, and a coordinate of the
    region is returned as it is. *)
Theorem wrap_idempotent (radius : Z) (c : axial) (fuel : nat) :
  0 <= radius -> small radius -> small_cell c ->
  (Z.to_nat (distance c origin - radius) < fuel)%nat ->
  is_Some (wrap fuel radius c) /\
  wrap fuel radius c ≫= wrap fuel radius = wrap fuel radius c /\
  (distance c origin <= radius -> wrap fuel radius c = Some c).
Proof.
  intros Hr _ _ Hfuel.
  destruct (wrap_returns radius Hr (Z.to_nat (distance c origin - radius)) c)
    as (c' & Hc' & Hin); [lia|].
  apply wrap_fuel_mono with (fuel' := fuel) in Hc'; [|lia].
  destruct fuel as [|fuel]; [lia|].
  rewrite Hc'. split; [eauto|]. split.
  - simpl. by rewrite (wrap_call_inside radius c' Hin).
  - intros Hc. rewrite wrap_inside in Hc'; [|done]. by rewrite Hc'.
Qed.

Lemma wrap_idempotent_witness :
  is_Some (wrap 9 2 (7, -3)) /\
  wrap 9 2 (7, -3) ≫= wrap 9 2 = wrap 9 2 (7, -3) /\
  (distance (7, -3) origin <= 2 -> wrap 9 2 (7, -3) = Some (7, -3)).
Proof.
  apply (wrap_idempotent 2 (7, -3) 9);
    [lia | unfold small; lia | unfold small_cell, small; simpl; lia
    | vm_compute; lia].
Defined.

(** C8, against the claim. For the radius 2 and the coordinate
    (2^62, 2^62) the code's [wrap] calls itself on the same coordinate:
    [wrap(2)(c)] has no value for any fuel, and neither has [wrap] of it. *)
Lemma wrap_of_wrap_has_no_value :
  Binary64.wrap_call 2 (cell_of (2 ^ 62, 2 ^ 62))
  = Binary64.Recurse (cell_of (2 ^ 62, 2 ^ 62)) /\
  (forall fuel : nat,
      Binary64.wrap fuel 2 (cell_of (2 ^ 62, 2 ^ 62)) = None /\
      Binary64.wrap fuel 2 (cell_of (2 ^ 62, 2 ^ 62)) ≫= Binary64.wrap fuel 2 = None).
Proof.
  assert (H : Binary64.wrap_call 2 (cell_of (2 ^ 62, 2 ^ 62))
              = Binary64.Recurse (cell_of (2 ^ 62, 2 ^ 62)))
    by (vm_compute; reflexivity).
  split; [exact H|].
  assert (Hn : forall fuel : nat,
             Binary64.wrap fuel 2 (cell_of (2 ^ 62, 2 ^ 62)) = None).
  { induction fuel as [|fuel IH]; [reflexivity|].
    cbn [Binary64.wrap]. rewrite H. exact IH. }
  intros fuel. rewrite Hn. split; reflexivity.
Qed.




(** ** The occupancy map *)
Section Cells.
Implicit Types (cells : cells_t) (c : axial) (q r : Z).

(** What a read through the proxies returns: the stored value, [false]
    when there is none. *)
Lemma cells_get_value cells q r :
  (cells_get cells q r).1 = default false (cell_value cells (q, r)).
Proof.
  unfold cells_get, cell_value, dd_get. simpl.
  destruct (cells !! r) as [row|] eqn:Hr; simpl.
  - destruct (row !! q) as [v|] eqn:Hq; simpl; done.
  - rewrite lookup_empty. done.
Qed.

(** What a read leaves behind: the cell read has an entry. *)
Lemma cells_get_cells cells q r c :
  cell_value (cells_get cells q r).2 c =
    if decide (c = (q, r))
    then Some (default false (cell_value cells (q, r)))
    else cell_value cells c.
Proof.
  destruct c as [q' r'].
  unfold cells_get, cell_value, dd_get. simpl.
  destruct (cells !! r) as [row|] eqn:Hr; simpl.
  - destruct (row !! q) as [v|] eqn:Hq; simpl.
    + rewrite insert_id by done. case_decide as E; [|done].
      injection E as -> ->. rewrite Hr. simpl. by rewrite Hq.
    + destruct (decide (r' = r)) as [->|Hne].
      * rewrite lookup_insert_eq. simpl.
        destruct (decide (q' = q)) as [->|Hne].
        -- rewrite lookup_insert_eq. by rewrite decide_True.
        -- rewrite lookup_insert_ne by done. rewrite decide_False by congruence.
           by rewrite Hr.
      * rewrite lookup_insert_ne by done. rewrite decide_False by congruence. done.
  - rewrite lookup_empty. simpl. rewrite insert_insert_eq.
    destruct (decide (r' = r)) as [->|Hne].
    + rewrite lookup_insert_eq. simpl.
      destruct (decide (q' = q)) as [->|Hne].
      * rewrite lookup_insert_eq. by rewrite decide_True.
      * rewrite lookup_insert_ne by done. rewrite decide_False by congruence.
        by rewrite Hr, lookup_empty.
    + rewrite lookup_insert_ne by done. rewrite decide_False by congruence. done.
Qed.

(** A read of a cell that has an entry changes nothing. *)
Lemma cells_get_present cells q r v :
  cell_value cells (q, r) = Some v -> cells_get cells q r = (v, cells).
Proof.
  unfold cells_get, cell_value, dd_get. simpl. intros H.
  destruct (cells !! r) as [row|] eqn:Hr; simpl in *; [|done].
  rewrite H. by rewrite insert_id.
Qed.

Lemma cells_set_cells cells q r v c :
  cell_value (cells_set cells q r v) c =
    if decide (c = (q, r)) then Some v else cell_value cells c.
Proof.
  destruct c as [q' r'].
  unfold cells_set, cell_value, dd_get. simpl.
  destruct (cells !! r) as [row|] eqn:Hr; simpl.
  - destruct (decide (r' = r)) as [->|Hne].
    + rewrite lookup_insert_eq. simpl.
      destruct (decide (q' = q)) as [->|Hne].
      * rewrite lookup_insert_eq. by rewrite decide_True.
      * rewrite lookup_insert_ne by done. rewrite decide_False by congruence.
        by rewrite Hr.
    + rewrite lookup_insert_ne by done. rewrite decide_False by congruence. done.
  - rewrite insert_insert_eq.
    destruct (decide (r' = r)) as [->|Hne].
    + rewrite lookup_insert_eq. simpl.
      destruct (decide (q' = q)) as [->|Hne].
      * rewrite lookup_insert_eq. by rewrite decide_True.
      * rewrite lookup_insert_ne by done. rewrite decide_False by congruence.
        by rewrite Hr, lookup_empty.
    + rewrite lookup_insert_ne by done. rewrite decide_False by congruence. done.
Qed.

Lemma is_open_cells_get cells q r c :
  is_open (cells_get cells q r).2 c <-> is_open cells c.
Proof.
  unfold is_open. rewrite cells_get_cells. case_decide as E; [|done].
  subst c. destruct (cell_value cells (q, r)) as [[]|]; simpl; split; congruence.
Qed.

Lemma is_open_cells_set cells q r c :
  is_open (cells_set cells q r true) c <-> c = (q, r) \/ is_open cells c.
Proof.
  unfold is_open. rewrite cells_set_cells. case_decide as E; [tauto|].
  split; [tauto|]. intros [?|?]; done.
Qed.

End Cells.

(** ** The shuffle keeps the elements *)
Section Shuffle.
Context {A : Type}.
Implicit Types (l : list A).

Lemma swap_length l i j : length (swap l i j) = length l.
Proof.
  unfold swap. destruct (l !! i), (l !! j); try done.
  by rewrite !length_insert.
Qed.

Lemma swap_elem_of l i j x : x ∈ swap l i j <-> x ∈ l.
Proof.
  unfold swap.
  destruct (l !! i) as [a|] eqn:Hi; [|done].
  destruct (l !! j) as [b|] eqn:Hj; [|done].
  assert (Hil : (i < length l)%nat) by (by eapply lookup_lt_Some).
  assert (Hjl : (j < length l)%nat) by (by eapply lookup_lt_Some).
  rewrite !list_elem_of_lookup. split.
  - intros [k Hk].
    destruct (decide (k = j)) as [->|Hkj].
    + rewrite list_lookup_insert_eq in Hk by (by rewrite length_insert).
      injection Hk as <-. eauto.
    + rewrite list_lookup_insert_ne in Hk by done.
      destruct (decide (k = i)) as [->|Hki].
      * rewrite list_lookup_insert_eq in Hk by done. injection Hk as <-. eauto.
      * rewrite list_lookup_insert_ne in Hk by done. eauto.
  - intros [k Hk].
    destruct (decide (k = i)) as [->|Hki].
    + exists j. rewrite list_lookup_insert_eq by (by rewrite length_insert).
      congruence.
    + destruct (decide (k = j)) as [->|Hkj].
      * exists i. rewrite list_lookup_insert_ne by done.
        rewrite list_lookup_insert_eq by done. congruence.
      * exists k. by rewrite !list_lookup_insert_ne by done.
Qed.

Lemma shuffle_from_spec indices : forall l g,
  length (shuffle_from indices l g).1 = length l /\
  forall x, x ∈ (shuffle_from indices l g).1 <-> x ∈ l.
Proof.
  induction indices as [|i indices IH]; intros l g; [done|].
  cbn [shuffle_from]. destruct (randint i (length l) g) as [j g'].
  destruct (IH (swap l i j) g') as [Hlen Hel].
  split; [by rewrite Hlen, swap_length|].
  intros x. by rewrite Hel, swap_elem_of.
Qed.

Lemma shuffled_spec l g :
  length (shuffled l g).1 = length l /\
  forall x, x ∈ (shuffled l g).1 <-> x ∈ l.
Proof. apply shuffle_from_spec. Qed.

End Shuffle.

(** ** The walk *)
Section Walk.
Variables (fuel : nat) (radius : Z).
Implicit Types (cells : cells_t) (c cur : axial) (ds : list axial).

(** The loop over the directions does what [scan_post] says. *)
Lemma scan_spec cur cells : forall ds res cells',
  scan fuel radius cur ds cells = Some (res, cells') ->
  scan_post fuel radius cur ds cells res cells'.
Proof.
  induction ds as [|d ds IH]; intros res cells' H; simpl in H.
  - injection H as <- <-. split; [done|]. intros d Hd. inversion Hd.
  - destruct (wrap fuel radius (add cur d)) as [[q r]|] eqn:Hw; [|done].
    pose proof (cells_get_value cells q r) as Hv.
    destruct (cells_get cells q r) as [v cells1] eqn:Hg. simpl in Hv.
    destruct v; simpl in H.
    + assert (Hopen : cell_value cells (q, r) = Some true).
      { destruct (cell_value cells (q, r)) as [[]|]; done. }
      rewrite (cells_get_present cells q r true Hopen) in Hg.
      injection Hg as <-.
      specialize (IH res cells' H). destruct res as [c|]; simpl in *.
      * destruct IH as ((d' & Hd' & Hw') & Hfree & Hcells).
        split; [|done]. exists d'. split; [by right|done].
      * destruct IH as [-> Hall]. split; [done|].
        intros d' Hd'. apply elem_of_cons in Hd' as [->|Hd']; eauto.
    + injection H as <- <-. simpl. split; [|split].
      * exists d. split; [by left|done].
      * done.
      * by rewrite Hg.
Qed.

(** It runs to its end when [wrap] returns on every candidate. *)
Lemma scan_total cur cells : forall ds,
  (forall d, d ∈ ds -> is_Some (wrap fuel radius (add cur d))) ->
  is_Some (scan fuel radius cur ds cells).
Proof.
  induction ds as [|d ds IH]; intros Hw; simpl; [eauto|].
  destruct (Hw d) as [[q r] Hc]; [by left|]. rewrite Hc.
  pose proof (cells_get_value cells q r) as Hv.
  destruct (cells_get cells q r) as [v cells1] eqn:Hg. simpl in Hv.
  destruct v; simpl; [|eauto].
  assert (Hopen : cell_value cells (q, r) = Some true).
  { destruct (cell_value cells (q, r)) as [[]|]; done. }
  rewrite (cells_get_present cells q r true Hopen) in Hg. injection Hg as <-.
  apply IH. intros d' Hd'. apply Hw. by right.
Qed.

(** One pull does what [walk_post] says. *)
Lemma walk_loop_spec : forall stack0 cur cells g y st' cells' g',
  walk_loop fuel radius cur stack0 cells g = Some (y, st', cells', g') ->
  walk_post fuel radius cur stack0 cells y st' cells'.
Proof.
  induction stack0 as [|top rest IH]; intros cur cells g y st' cells' g' H;
    cbn [walk_loop] in H.
  - injection H as <- <- <- <-. done.
  - destruct (shuffled_spec directions g) as [_ Hel].
    destruct (shuffled directions g) as [ds g1]. simpl in Hel.
    destruct (scan fuel radius cur ds cells) as [[[c|] cells1]|] eqn:Hs;
      [| |discriminate H].
    + injection H as <- <- <- <-.
      apply scan_spec in Hs as ((d & Hd & Hw) & Hfree & Hcells).
      split; [|split; [done|split; [done|split; [done|]]]].
      * exists cur, d. split; [by left|]. split; [by apply Hel|done].
      * exists (top :: rest). done.
    + apply scan_spec in Hs as [-> _].
      specialize (IH top cells g1 y st' cells' g' H).
      destruct y as [c|]; simpl in *; [|done].
      destruct IH as ((from & d & Hfrom & Hd & Hw) & Hfree & Hcells & Hat & rest' & Hst & Hsub).
      split; [|split; [done|split; [done|split; [done|]]]].
      * exists from, d. split; [|done]. right.
        destruct Hfrom as [->|Hfrom]; [by left|by right].
      * exists rest'. split; [done|]. intros x Hx. right. by apply Hsub.
Qed.

(** One pull returns when [wrap] returns on every candidate: each turn of
    the loop that does not yield shortens the stack. *)
Lemma walk_loop_total : forall stack0 cur cells g,
  (forall from d, from = cur \/ from ∈ stack0 -> d ∈ directions ->
                  is_Some (wrap fuel radius (add from d))) ->
  is_Some (walk_loop fuel radius cur stack0 cells g).
Proof.
  induction stack0 as [|top rest IH]; intros cur cells g Hw;
    cbn [walk_loop]; [eauto|].
  destruct (shuffled_spec directions g) as [_ Hel].
  destruct (shuffled directions g) as [ds g1]. simpl in Hel.
  destruct (scan_total cur cells ds) as [[res cells1] Hs].
  { intros d Hd. apply Hw; [by left|by apply Hel]. }
  rewrite Hs. destruct res as [c|]; [eauto|].
  apply IH. intros from d Hfrom Hd. apply Hw; [|done].
  right. destruct Hfrom as [->|Hfrom]; [by left|by right].
Qed.

(** A turn that finds no closed neighbour goes on from the cell it pops,
    which is the top of the stack: after a [yield], the current cell. *)
Lemma walk_loop_pops cur top rest cells g :
  scan fuel radius cur (shuffled directions g).1 cells = Some (None, cells) ->
  walk_loop fuel radius cur (top :: rest) cells g
  = walk_loop fuel radius top rest cells (shuffled directions g).2.
Proof.
  intros H. cbn [walk_loop].
  destruct (shuffled directions g) as [ds g']. simpl in *. by rewrite H.
Qed.

End Walk.

Lemma reachable_mono step (cells cells' : cells_t) c :
  (forall x, is_open cells x -> is_open cells' x) ->
  reachable step cells c -> reachable step cells' c.
Proof.
  intros Hsub H. induction H as [|a b Ha IH Hstep Hb].
  - constructor.
  - econstructor; eauto.
Qed.

Lemma reachable_open_or_seed step (cells : cells_t) c :
  reachable step cells c -> c = origin \/ is_open cells c.
Proof. destruct 1; auto. Qed.

Lemma step_from_region c d :
  d ∈ directions -> distance (add c d) origin <= distance c origin + 1.
Proof.
  intros Hd. destruct c as [q r]. unfold directions in Hd.
  repeat (apply elem_of_cons in Hd as [->|Hd]);
    [unfold distance, add, origin; simpl; lia .. | inversion Hd].
Qed.

Lemma Qpositive_spec (n : Q) : Qpositive n = true <-> (0 < n)%Q.
Proof. unfold Qpositive, Qlt. simpl. rewrite Z.ltb_lt. lia. Qed.

Lemma Qlen_cons (x : axial) (l : list axial) : (Qlen (x :: l) == Qlen l + 1)%Q.
Proof.
  unfold Qlen. simpl length. rewrite Nat2Z.inj_succ. unfold Z.succ.
  rewrite inject_Z_plus. reflexivity.
Qed.

(** ** World assembly *)
Section World.
Variables (fuel : nat) (radius : Z).
Hypothesis Hfuel : (2 <= fuel)%nat.
Hypothesis Hradius : 0 <= radius.
Implicit Types (cells : cells_t) (c : axial) (st : walk_state).

Lemma good_mono cells cells' c :
  (forall x, is_open cells x -> is_open cells' x) ->
  good radius cells c -> good radius cells' c.
Proof. intros Hsub [Hin Hreach]. split; [done|]. by eapply reachable_mono. Qed.

Lemma neighbour_wraps c d :
  distance c origin <= radius -> d ∈ directions ->
  is_Some (wrap fuel radius (add c d)).
Proof.
  intros Hc Hd. pose proof (step_from_region c d Hd).
  destruct fuel as [|fuel']; [lia|].
  destruct (wrap_returns radius Hradius fuel' (add c d)) as (c' & Hc' & _); [lia|].
  eauto.
Qed.

(** One pull keeps the invariant, once the consumer has marked the cell. *)
Lemma walk_next_inv st cells marked g :
  world_inv radius st cells marked ->
  exists y st' cells' g',
    walk_next fuel radius st cells g = Some (y, st', cells', g') /\
    (forall x, is_open cells' x <-> is_open cells x) /\
    match y with
    | Some c => world_inv radius st' (cells_set cells' c.1 c.2 true) (c :: marked)
    | None => cells' = cells
    end.
Proof.
  intros [Hmarked Hnodup Hopen Hat Hstack Hentries]. unfold walk_next.
  destruct (walk_loop_total fuel radius (stack st) (at_ st) cells g)
    as [[[[y st'] cells'] g'] Hw].
  { intros from d Hfrom Hd. apply neighbour_wraps; [|done].
    destruct Hfrom as [->|Hfrom]; [apply Hat|by apply Hstack]. }
  exists y, st', cells', g'. split; [done|].
  apply walk_loop_spec in Hw. destruct y as [c|]; simpl in Hw.
  - destruct Hw as ((from & d & Hfrom & Hd & Hwrap) & Hfree & -> & Hat' & rest & Hst & Hsub).
    assert (Hsame : forall x, is_open (cells_get cells c.1 c.2).2 x <-> is_open cells x)
      by (intros x; apply is_open_cells_get).
    split; [done|].
    assert (Hclosed : ~ is_open cells c).
    { unfold is_open. intros E. rewrite E in Hfree. done. }
    assert (Hup : forall x, is_open cells x ->
                            is_open (cells_set (cells_get cells c.1 c.2).2 c.1 c.2 true) x).
    { intros x Hx. apply is_open_cells_set. right. by apply Hsame. }
    assert (Hfromgood : good radius cells from).
    { destruct Hfrom as [->|Hfrom]; [done|by apply Hstack]. }
    assert (Hc : good radius (cells_set (cells_get cells c.1 c.2).2 c.1 c.2 true) c).
    { split; [by eapply wrap_result_inside|].
      apply reach_step with (a := from).
      - eapply reachable_mono; [exact Hup|apply Hfromgood].
      - exists d, fuel. done.
      - apply is_open_cells_set. left. by destruct c. }
    split.
    + intros x. rewrite is_open_cells_set, Hsame, elem_of_cons, Hmarked.
      by destruct c.
    + constructor; [by rewrite Hmarked|done].
    + intros x Hx. apply is_open_cells_set in Hx as [Hx|Hx].
      * replace x with c by (by destruct c). done.
      * apply Hsame in Hx. by eapply good_mono; [exact Hup|apply Hopen].
    + by rewrite Hat'.
    + intros x Hx. rewrite Hst in Hx. apply elem_of_cons in Hx as [->|Hx]; [done|].
      eapply good_mono; [exact Hup|]. by apply Hstack, Hsub.
    + intros x. rewrite cells_set_cells. case_decide as E; [done|].
      rewrite cells_get_cells. rewrite decide_False by (by destruct c).
      apply Hentries.
  - destruct Hw as [-> _]. done.
Qed.

(** The loop returns, given turns enough for its budget, and what it
    returns is as [world_post] says. *)
Lemma world_loop_inv : forall (turns : nat) st n cells g marked,
  world_inv radius st cells marked ->
  (1 <= turns)%nat ->
  (n + 1 <= inject_Z (Z.of_nat turns))%Q ->
  exists cells' marked',
    world_loop fuel turns radius st n cells g marked = Some (cells', marked') /\
    world_post radius cells marked n cells' marked'.
Proof.
  induction turns as [|turns IH]; intros st n cells g marked Hinv Hturns Hn; [lia|].
  cbn [world_loop]. unfold take_next.
  destruct (walk_next_inv st cells marked g Hinv)
    as (y & st' & cells' & g' & -> & Hsame & Hy).
  destruct Hinv as [Hmarked Hnodup Hopen Hat Hstack Hentries].
  assert (Hstop : (forall c, cell_value cells' c <> Some false) \/ (n <= 0)%Q ->
                  world_post radius cells marked n cells' marked).
  { intros Hwhy. split; [|split; [done|split; [|split; [by left|]]]].
    - intros c. by rewrite Hsame.
    - intros c Hc. apply Hsame in Hc.
      eapply good_mono; [|by apply Hopen]. intros x. apply Hsame.
    - destruct Hwhy as [Hwhy|Hwhy]; [by left|right].
      revert Hwhy. generalize (Qlen marked). intros a Hwhy. lra. }
  destruct y as [[q r]|].
  2: { subst cells'. exists cells, marked. split; [done|]. apply Hstop. by left. }
  destruct (Qpositive n) eqn:Hpos.
  2: { exists cells', marked. split; [done|]. apply Hstop. right.
       apply Qnot_lt_le. rewrite <- Qpositive_spec. by rewrite Hpos. }
  apply Qpositive_spec in Hpos.
  rewrite Nat2Z.inj_succ in Hn. unfold Z.succ in Hn. rewrite inject_Z_plus in Hn.
  change (inject_Z 1) with 1%Q in Hn.
  destruct (IH st' (n - 1)%Q (cells_set cells' q r true) g' ((q, r) :: marked) Hy)
    as (cells'' & marked'' & Hloop & Hm & Hnd & Hgood & Hcount & Hfull).
  { destruct turns as [|turns']; [|lia].
    change (inject_Z (Z.of_nat 0)) with 0%Q in Hn. lra. }
  { lra. }
  exists cells'', marked''. split; [done|].
  split; [done|split; [done|split; [done|]]].
  assert (Hlen0 : (Qlen ((q, r) :: marked) == Qlen marked + 1)%Q) by apply Qlen_cons.
  split; [|destruct Hfull as [Hfull|Hfull]; [by left|right]].
  2: { match type of Hfull with
       | (?t + _ <= _)%Q =>
           assert (Hlen : (t == Qlen marked + 1)%Q) by apply Qlen_cons;
           revert Hlen Hfull; generalize t
       end.
       generalize (Qlen marked''), (Qlen marked). intros a b c Hlen Hfull. lra. }
  right. destruct Hcount as [E|Hcount].
  - assert (Hlen : (Qlen marked'' == Qlen marked + 1)%Q)
      by (rewrite E; apply Qlen_cons).
    revert Hlen. generalize (Qlen marked''), (Qlen marked). intros a b Hlen. lra.
  - match type of Hcount with
    | (_ < ?t + _ + _)%Q =>
        assert (Hlen : (t == Qlen marked + 1)%Q) by apply Qlen_cons;
        revert Hlen Hcount; generalize t
    end.
    generalize (Qlen marked''), (Qlen marked). intros a b c Hlen Hcount. lra.
Qed.

End World.

Lemma area_pos radius : 0 < area radius.
Proof. unfold area. nia. Qed.

Lemma area_not_multiple_of_5 radius : area radius mod 5 <> 0.
Proof.
  unfold area.
  assert (H : exists k i, radius = 5 * k + i /\ 0 <= i < 5).
  { exists (radius / 5), (radius mod 5).
    split; [apply Z.div_mod; lia | apply Z.mod_pos_bound; lia]. }
  destruct H as (k & i & -> & Hi).
  replace (3 * (5 * k + i) ^ 2 + 3 * (5 * k + i) + 1)
    with (3 * i ^ 2 + 3 * i + 1 + (15 * k * k + 6 * k * i + 3 * k) * 5) by ring.
  rewrite Z.mod_add by lia.
  assert (Hc : i = 0 \/ i = 1 \/ i = 2 \/ i = 3 \/ i = 4) by lia.
  destruct Hc as [->|[->|[->|[->| ->]]]]; vm_compute; discriminate.
Qed.

Lemma steps_ceiling radius : Qceiling (steps radius) = Qfloor (steps radius) + 1.
Proof.
  pose proof (area_not_multiple_of_5 radius) as H.
  unfold steps, Qceiling, Qfloor. generalize dependent (area radius). intros a H.
  cbn. change (Z.pos (10 * 1)) with 10. Z.div_mod_to_equations. lia.
Qed.

Lemma steps_bound radius (fuel : nat) :
  0 <= radius -> (Z.to_nat (area radius) < fuel)%nat ->
  (0 < steps radius)%Q /\ (steps radius + 1 <= inject_Z (Z.of_nat fuel))%Q.
Proof.
  intros Hr Hfuel. pose proof (area_pos radius) as Ha.
  assert (Hle : (inject_Z (area radius) + 1 <= inject_Z (Z.of_nat fuel))%Q).
  { change 1%Q with (inject_Z 1). rewrite <- inject_Z_plus.
    rewrite <- Zle_Qle. lia. }
  assert (Hpos : (0 < inject_Z (area radius))%Q).
  { change 0%Q with (inject_Z 0). rewrite <- Zlt_Qlt. lia. }
  unfold steps. revert Hle Hpos.
  generalize (inject_Z (area radius)), (inject_Z (Z.of_nat fuel)).
  intros a b Hle Hpos. split; lra.
Qed.

Lemma world_inv_init radius :
  0 <= radius -> world_inv radius (generate_random_walk (0, 0)) ∅ [].
Proof.
  intros Hr.
  assert (Hgood : good radius ∅ (0, 0)).
  { split; [unfold distance, origin; simpl; lia | apply reach_seed]. }
  split.
  - intros c. split; [intros H; inversion H|].
    unfold is_open, cell_value. rewrite lookup_empty. done.
  - constructor.
  - intros c. unfold is_open, cell_value. rewrite lookup_empty. done.
  - done.
  - intros c Hc. simpl in Hc. apply list_elem_of_singleton in Hc as ->. done.
  - intros c. unfold cell_value. rewrite lookup_empty. done.
Qed.

(** What [generateWorld] returns, for any oracle. *)
Lemma generateWorld_marked_spec radius (fuel : nat) (g : oracle) :
  0 <= radius -> (Z.to_nat (area radius) < fuel)%nat ->
  exists cells marked,
    generateWorld_marked fuel radius g = Some (cells, marked) /\
    world_post radius ∅ [] (steps radius) cells marked.
Proof.
  intros Hr Hfuel. pose proof (area_pos radius) as Ha.
  destruct (steps_bound radius fuel Hr Hfuel) as [_ Hturns].
  unfold generateWorld_marked.
  apply world_loop_inv; [lia | done | by apply world_inv_init | lia | done].
Qed.


(** ** The region of radius 0 *)
Lemma wrap_0_neighbour (fuel : nat) d :
  (2 <= fuel)%nat -> d ∈ directions -> wrap fuel 0 (add (0, 0) d) = Some (0, 0).
Proof.
  intros Hfuel Hd. destruct fuel as [|[|fuel]]; [lia..|].
  unfold directions in Hd.
  repeat (apply elem_of_cons in Hd as [->|Hd]); [reflexivity..|inversion Hd].
Qed.

Lemma generateWorld_radius_0 (fuel : nat) (g : oracle) :
  (2 <= fuel)%nat ->
  generateWorld_marked fuel 0 g = Some ({[ 0 := {[ 0 := true ]} ]}, [ (0, 0) ]).
Proof.
  intros Hfuel. unfold generateWorld_marked.
  generalize fuel at 2 as turns, Hfuel. intros [|[|turns]] Hturns; [lia..|].
  cbn [world_loop]. unfold take_next at 1, walk_next at 1.
  cbn [generate_random_walk at_ stack walk_loop].
  destruct (shuffled_spec directions g) as [Hlen Hel].
  destruct (shuffled directions g) as [ds g1]. simpl in Hlen, Hel.
  destruct ds as [|d ds]; [discriminate Hlen|].
  cbn [scan]. rewrite wrap_0_neighbour by (lia || apply Hel; left).
  change (cells_get ∅ 0 0) with (false, ({[ 0 := {[ 0 := false ]} ]} : cells_t)).
  cbn [negb]. change (Qpositive (steps 0)) with true. cbv iota.
  change (cells_set {[ 0 := {[ 0 := false ]} ]} 0 0 true)
    with ({[ 0 := {[ 0 := true ]} ]} : cells_t).
  set (cells2 := ({[ 0 := {[ 0 := true ]} ]} : cells_t)).
  unfold take_next, walk_next. cbn [at_ stack].
  assert (Hw : forall from d0,
             from = (0, 0) \/ from ∈ [ (0, 0); (0, 0) ] -> d0 ∈ directions ->
             wrap fuel 0 (add from d0) = Some (0, 0)).
  { intros from d0 Hfrom Hd0.
    assert (from = (0, 0)) as ->.
    { destruct Hfrom as [->|Hfrom]; [done|].
      repeat (apply elem_of_cons in Hfrom as [->|Hfrom]); [done..|inversion Hfrom]. }
    by apply wrap_0_neighbour. }
  match goal with
  | |- context [walk_loop fuel 0 ?cur ?stk ?cl ?gg] =>
      destruct (walk_loop fuel 0 cur stk cl gg) as [[[[y st'] cells'] g']|] eqn:Hloop
  end.
  - apply walk_loop_spec in Hloop. destruct y as [c|]; simpl in Hloop.
    + exfalso. destruct Hloop as ((from & d0 & Hfrom & Hd0 & Hwrap) & Hfree & _).
      rewrite (Hw from d0) in Hwrap by done. injection Hwrap as <-.
      vm_compute in Hfree. discriminate.
    + destruct Hloop as [-> _]. done.
  - exfalso. eapply is_Some_None. rewrite <- Hloop.
    apply walk_loop_total. intros from d0 Hfrom Hd0.
    rewrite (Hw from d0) by done. eauto.
Qed.

(** C2, as the code has it. For a radius that is not negative and any
    oracle, [generateWorld] returns, and every open cell of the map lies in
    the region and is reached from the origin by a path of open cells in
    which each cell is the wrapped neighbour, [wrap] of the cell plus a
    direction, of the one before. The same holds of the loop entered with
    any budget [n], given turns enough to spend it. *)
Theorem open_cells_connected_by_wrapped_steps
  (radius : Z) (fuel : nat) (g : oracle) :
  0 <= radius ->
  (Z.to_nat (area radius) < fuel)%nat ->
  (exists cells,
      generateWorld fuel radius g = Some cells /\
      forall c, is_open cells c ->
                distance c origin <= radius /\
                reachable (wrapped_step radius) cells c) /\
  (forall (n : Q) (turns : nat),
      (1 <= turns)%nat ->
      (n + 1 <= inject_Z (Z.of_nat turns))%Q ->
      exists cells marked,
        world_loop fuel turns radius (generate_random_walk (0, 0)) n ∅ g []
          = Some (cells, marked) /\
        forall c, is_open cells c ->
                  distance c origin <= radius /\
                  reachable (wrapped_step radius) cells c).
Proof.
  intros Hr Hfuel. split.
  - destruct (generateWorld_marked_spec radius fuel g Hr Hfuel)
      as (cells & marked & Hgen & _ & _ & Hgood & _).
    exists cells. unfold generateWorld. rewrite Hgen. split; [done|].
    intros c Hc. apply Hgood, Hc.
  - intros n turns Hturns Hn. pose proof (area_pos radius) as Ha.
    destruct (world_loop_inv fuel radius ltac:(lia) Hr turns
                (generate_random_walk (0, 0)) n ∅ g []
                (world_inv_init radius Hr) Hturns Hn)
      as (cells & marked & Hloop & _ & _ & Hgood & _).
    exists cells, marked. split; [done|]. intros c Hc. apply Hgood, Hc.
Qed.

Lemma open_cells_connected_by_wrapped_steps_witness :
  0 <= 2 /\
  (Z.to_nat (area 2) < 20)%nat /\
  (exists cells,
      generateWorld 20 2 detour = Some cells /\
      forall c, is_open cells c ->
                distance c origin <= 2 /\
                reachable (wrapped_step 2) cells c) /\
  (forall (n : Q) (turns : nat),
      (1 <= turns)%nat ->
      (n + 1 <= inject_Z (Z.of_nat turns))%Q ->
      exists cells marked,
        world_loop 20 turns 2 (generate_random_walk (0, 0)) n ∅ detour []
          = Some (cells, marked) /\
        forall c, is_open cells c ->
                  distance c origin <= 2 /\
                  reachable (wrapped_step 2) cells c).
Proof.
  split; [lia|]. split; [vm_compute; lia|].
  apply (open_cells_connected_by_wrapped_steps 2 20 detour); [lia | vm_compute; lia].
Defined.

Lemma adjacent_neighbour a b :
  adjacent a b -> exists d, d ∈ directions /\ a = add b d.
Proof.
  destruct a as [q r], b as [q' r']. unfold adjacent, distance, directions, add.
  simpl. intros H.
  assert (Hq : q = q' - 1 \/ q = q' \/ q = q' + 1) by lia.
  assert (Hr : r = r' - 1 \/ r = r' \/ r = r' + 1) by lia.
  destruct Hq as [->|[->| ->]], Hr as [->|[->| ->]]; try lia.
  - exists (-1, 0). split; [set_solver|simpl; f_equal; lia].
  - exists (-1, 1). split; [set_solver|simpl; f_equal; lia].
  - exists (0, -1). split; [set_solver|simpl; f_equal; lia].
  - exists (0, 1). split; [set_solver|simpl; f_equal; lia].
  - exists (1, -1). split; [set_solver|simpl; f_equal; lia].
  - exists (1, 0). split; [set_solver|simpl; f_equal; lia].
Qed.

(** C2, against the claim. In the region of radius 2, with the oracle
    [detour], the walk goes (0,1), (0,2), then wraps to (-2,0) and to
    (2,-2), and on to (2,-1), (2,0), (1,0), (1,1). The cell (-2,0) is open,
    and no cell one apart from it is open or the origin: no path of
    adjacent open cells leads to it. *)
Lemma open_cells_not_connected_on_the_grid :
  generateWorld 20 2 detour = Some detour_cells /\
  is_open detour_cells (-2, 0) /\
  ~ reachable adjacent detour_cells (-2, 0).
Proof.
  split; [vm_compute; reflexivity|]. split; [vm_compute; reflexivity|].
  intros H. inversion H as [Heq|a b Ha Hstep Hb Heq]; try discriminate.
  apply reachable_open_or_seed in Ha.
  apply adjacent_neighbour in Hstep as (d & Hd & ->).
  unfold directions in Hd.
  repeat (apply elem_of_cons in Hd as [->|Hd]); [..|inversion Hd];
    (destruct Ha as [Ha|Ha]; [discriminate Ha | vm_compute in Ha; discriminate Ha]).
Qed.

(** The loop with its ghosts is the loop. *)
Lemma world_loop_ending_loop (fuel : nat) (radius : Z) :
  forall (turns : nat) st n cells g marked,
    world_loop fuel turns radius st n cells g marked
    = (fun res => (res.1.1.1, res.1.1.2))
        <$> world_loop_ending fuel turns radius st n cells g marked.
Proof.
  induction turns as [|turns IH]; intros st n cells g marked; [done|].
  cbn [world_loop world_loop_ending]. unfold take_next.
  destruct (walk_next fuel radius st cells g) as [[[[[[q r]|] st'] cells'] g']|];
    [|done..].
  destruct (Qpositive n); [apply IH|done].
Qed.

(** When the predicate of [take] ends the loop the budget is used up and
    the walk has a cell on its stack; when the walk does, its stack is
    empty and the map has no entry [false]. *)
Lemma world_loop_ending_spec (fuel : nat) (radius : Z) :
  (2 <= fuel)%nat -> 0 <= radius ->
  forall (turns : nat) st n cells g marked cells' marked' why st',
    world_inv radius st cells marked ->
    world_loop_ending fuel turns radius st n cells g marked
    = Some (cells', marked', why, st') ->
    match why with
    | BudgetSpent => (Qlen marked + n <= Qlen marked')%Q /\ stack st' <> []
    | WalkDone => (forall c, cell_value cells' c <> Some false) /\ stack st' = []
    end.
Proof.
  intros Hfuel Hr.
  induction turns as [|turns IH];
    intros st n cells g marked cells' marked' why st' Hinv Hloop; [discriminate|].
  cbn [world_loop_ending] in Hloop.
  destruct (walk_next_inv fuel radius Hfuel Hr st cells marked g Hinv)
    as (y & st1 & cells1 & g1 & Hnext & _ & Hy).
  rewrite Hnext in Hloop. unfold walk_next in Hnext.
  apply walk_loop_spec in Hnext. destruct y as [[q r]|].
  - destruct (Qpositive n) eqn:Hpos.
    + specialize (IH _ _ _ _ _ _ _ _ _ Hy Hloop). destruct why; [done|].
      destruct IH as [IH Hst]. split; [|done].
      pose proof (Qlen_cons (q, r) marked) as Hlen. revert IH Hlen.
      generalize (Qlen ((q, r) :: marked)), (Qlen marked), (Qlen marked').
      intros a b c IH Hlen. lra.
    + injection Hloop as <- <- <- <-.
      assert (Hn : (n <= 0)%Q).
      { apply Qnot_lt_le. rewrite <- Qpositive_spec. by rewrite Hpos. }
      split.
      * revert Hn. generalize (Qlen marked). intros a Hn. lra.
      * destruct Hnext as (_ & _ & _ & _ & rest & -> & _). done.
  - injection Hloop as <- <- <- <-. subst cells1.
    split; [apply Hinv|]. by destruct Hnext as [_ ?].
Qed.

(** C3, as the code has it. The budget is the fraction 0.4 of the cell
    count, not rounded: up to the radius [2^20] (and far beyond) it is
    not an integer, and its ceiling is its floor plus one. When
    [generateWorld] returns, the cells it marked are distinct and are
    exactly the open cells of the map; there are at most as many as the
    ceiling of the budget, and exactly as many when the loop was ended by
    the predicate of [take], on a cell that the walk had yielded; when it
    was ended by the walk, the walk was done, its stack empty, and the
    map has no entry [false]. For the radius 0 the budget is 0.4, one
    cell is marked, and the map holds the origin, open. *)
Theorem budget_is_a_fraction (radius : Z) (fuel : nat) (g : oracle)
  (cells : cells_t) (marked : list axial) (why : ending) (st : walk_state) :
  0 <= radius <= 2 ^ 20 ->
  (Z.to_nat (area radius) < fuel)%nat ->
  generateWorld_ending fuel radius g = Some (cells, marked, why, st) ->
  Qceiling (steps radius) = Qfloor (steps radius) + 1 /\
  generateWorld_marked fuel radius g = Some (cells, marked) /\
  generateWorld fuel radius g = Some cells /\
  NoDup marked /\
  (forall c, c ∈ marked <-> is_open cells c) /\
  Z.of_nat (length marked) <= Qceiling (steps radius) /\
  (why = BudgetSpent ->
   Z.of_nat (length marked) = Qceiling (steps radius) /\ stack st <> []) /\
  (why = WalkDone ->
   stack st = [] /\ forall c, cell_value cells c <> Some false) /\
  (radius = 0 ->
   (steps radius == 0.4)%Q /\
   cells = {[ 0 := {[ 0 := true ]} ]} /\ marked = [ (0, 0) ]).
Proof.
  intros [Hr _] Hfuel Hend. split; [apply steps_ceiling|].
  pose proof (area_pos radius) as Ha.
  assert (Hgen : generateWorld_marked fuel radius g = Some (cells, marked)).
  { unfold generateWorld_marked. rewrite world_loop_ending_loop.
    unfold generateWorld_ending in Hend. by rewrite Hend. }
  destruct (generateWorld_marked_spec radius fuel g Hr Hfuel)
    as (cells0 & marked0 & Hgen0 & Hmarked & Hnodup & _ & Hcount & _).
  rewrite Hgen in Hgen0. injection Hgen0 as <- <-.
  pose proof (world_loop_ending_spec fuel radius ltac:(lia) Hr fuel _ _ _ _ _ _ _ _ _
                (world_inv_init radius Hr) Hend) as Hwhy.
  unfold generateWorld. rewrite Hgen.
  split; [done|]. split; [done|]. split; [done|]. split; [done|].
  assert (Hle : Z.of_nat (length marked) <= Qceiling (steps radius)).
  { destruct (steps_bound radius fuel Hr Hfuel) as [Hpos _].
    pose proof (Qle_ceiling (steps radius)) as Hceil.
    assert (Hlt : (Qlen marked < inject_Z (Qceiling (steps radius) + 1))%Q).
    { rewrite inject_Z_plus. change (inject_Z 1) with 1%Q.
      revert Hceil. generalize (inject_Z (Qceiling (steps radius))). intros u Hceil.
      destruct Hcount as [->|Hcount].
      - change (Qlen []) with 0%Q. lra.
      - change (Qlen []) with 0%Q in Hcount. revert Hcount.
        generalize (Qlen marked). intros v Hcount. lra. }
    unfold Qlen in Hlt. rewrite <- Zlt_Qlt in Hlt. lia. }
  split; [done|]. split; [|split].
  - intros ->. destruct Hwhy as [Hwhy Hst]. split; [|done].
    pose proof (Qceiling_lt (steps radius)) as Hceil.
    assert (Hlt : (inject_Z (Qceiling (steps radius) - 1) < Qlen marked)%Q).
    { change (Qlen []) with 0%Q in Hwhy. revert Hceil Hwhy.
      generalize (inject_Z (Qceiling (steps radius) - 1)), (Qlen marked).
      intros u v Hceil Hwhy. lra. }
    unfold Qlen in Hlt. rewrite <- Zlt_Qlt in Hlt. lia.
  - intros ->. destruct Hwhy as [Hwhy Hst]. done.
  - intros ->. split; [reflexivity|].
    rewrite generateWorld_radius_0 in Hgen by (vm_compute in Hfuel; lia).
    by injection Hgen as <- <-.
Qed.

Lemma budget_is_a_fraction_witness :
  exists cells marked st,
    generateWorld_ending 8 1 zeros = Some (cells, marked, BudgetSpent, st) /\
    Qceiling (steps 1) = Qfloor (steps 1) + 1 /\
    generateWorld_marked 8 1 zeros = Some (cells, marked) /\
    generateWorld 8 1 zeros = Some cells /\
    NoDup marked /\
    (forall c, c ∈ marked <-> is_open cells c) /\
    Z.of_nat (length marked) <= Qceiling (steps 1) /\
    (BudgetSpent = BudgetSpent ->
     Z.of_nat (length marked) = Qceiling (steps 1) /\ stack st <> []) /\
    (BudgetSpent = WalkDone ->
     stack st = [] /\ forall c, cell_value cells c <> Some false) /\
    (1 = 0 ->
     (steps 1 == 0.4)%Q /\
     cells = {[ 0 := {[ 0 := true ]} ]} /\ marked = [ (0, 0) ]).
Proof.
  destruct (generateWorld_ending 8 1 zeros) as [[[[cells marked] why] st]|] eqn:E;
    [|vm_compute in E; discriminate E].
  assert (Hwhy : why = BudgetSpent).
  { vm_compute in E. injection E as _ _ <- _. reflexivity. }
  subst why. exists cells, marked, st. split; [reflexivity|].
  apply (budget_is_a_fraction 1 8 zeros cells marked BudgetSpent st);
    [lia | vm_compute; lia | exact E].
Defined.

(** The two endings. For the radius 1 (and no shuffle changing the
    order) the predicate of [take] ends the loop, on the fourth cell that
    the walk yields, after three cells were marked; for the radius 0 the
    walk ends it, done after its first cell. *)
Example the_two_endings :
  (fun res => (length res.1.1.2, res.1.2, stack res.2))
    <$> generateWorld_ending 8 1 zeros
  = Some (3%nat, BudgetSpent, [ (1, -1); (-1, 1); (-1, 0); (0, 1); (0, 0) ]) /\
  (fun res => (length res.1.1.2, res.1.2, stack res.2))
    <$> generateWorld_ending 8 0 zeros
  = Some (1%nat, WalkDone, []).
Proof. split; vm_compute; reflexivity. Qed.

(** C3, against the claim. For the radius 0 the floor of the budget is 0,
    yet the walk runs: one cell is pulled and marked, and the map that
    [generateWorld] returns is not empty, it holds the origin. For the
    radius 1 the floor of the budget is 2 and three cells are marked. *)
Lemma budget_is_not_floored :
  Qfloor (steps 0) = 0 /\
  generateWorld 2 0 zeros = Some {[ 0 := {[ 0 := true ]} ]} /\
  is_open {[ 0 := {[ 0 := true ]} ]} (0, 0) /\
  Qfloor (steps 1) = 2 /\
  snd <$> generateWorld_marked 8 1 zeros = Some [ (-1, 1); (-1, 0); (0, 1) ].
Proof. repeat split; vm_compute; reflexivity. Qed.




(** C10, on the code. In the region of radius 2, over [boxed_cells], the
    walk from the origin first yields (0, 1), which the consumer marks.
    On the next pull no neighbour of (0, 1) is closed: the pop hands back
    (0, 1) itself, the top of the stack, and the loop searches from (0, 1)
    once more; the second pop hands back the origin and empties the
    stack, which ends the walk before the origin is searched, although
    its neighbour (0, -1) is closed. *)
Theorem backtracking_resumes_from_the_same_cell :
  let st1 := {| at_ := (0, 1); stack := [ (0, 1); (0, 0) ] |} in
  let cells0 := (cells_get boxed_cells 0 1).2 in
  let cells1 := cells_set cells0 0 1 true in
  walk_next 2 2 (generate_random_walk (0, 0)) boxed_cells zeros
    = Some (Some (0, 1), st1, cells0, zeros) /\
  scan 2 2 (0, 1) directions cells1 = Some (None, cells1) /\
  walk_loop 2 2 (0, 1) [ (0, 1); (0, 0) ] cells1 zeros
    = walk_loop 2 2 (0, 1) [ (0, 0) ] cells1 zeros /\
  walk_loop 2 2 (0, 1) [ (0, 0) ] cells1 zeros
    = walk_loop 2 2 (0, 0) [] cells1 zeros /\
  walk_next 2 2 st1 cells1 zeros
    = Some (None, {| at_ := (0, 0); stack := [] |}, cells1, zeros) /\
  wrap 2 2 (add (0, 0) (0, -1)) = Some (0, -1) /\
  cell_value cells1 (0, -1) = None.
Proof. cbv zeta. repeat split; vm_compute; reflexivity. Qed.

(** C7, on the code. The pixel (0.5625, 0.9742785792574935) with the
    size 1 has the fractional coordinates (0.375, 0.375, -0.75), which
    round to (0, 0, -1). The errors of [q] and [r] are both 0.375, the
    largest, and that of [s] is 0.25: neither of the two strict tests
    holds, [s] is the coordinate that is recomputed, and the result is the
    cell (0, 0), whose center is farther from the pixel than that of the
    cell (1, 0). *)
Theorem rounding_tie_corrects_the_smallest_error :
  let p := (0.5625, 0x1.f2d4a45635640p-1)%float in
  pixel_to_fractional p 1 = [ 0.375; 0.375 ]%float /\
  (- 0.375 - 0.375 = -0.75)%float /\
  or0 (Math_round 0.375) = 0 /\
  or0 (Math_round (-0.75)) = -1 /\
  (abs (of_Z 0 - 0.375) = 0.375)%float /\
  (abs (of_Z (-1) - -0.75) = 0.25)%float /\
  pixel_to_axial p 1 = (0, 0) /\
  axial_to_pixel (0, 0)%float 1 = [ 0; 0 ]%float /\
  axial_to_pixel (1, 0)%float 1 = [ 1.5; sqrt 3 / 2 ]%float /\
  ((1.5 - p.1) * (1.5 - p.1) + (sqrt 3 / 2 - p.2) * (sqrt 3 / 2 - p.2)
   <? p.1 * p.1 + p.2 * p.2)%float = true.
Proof. cbv zeta. repeat split; vm_compute; reflexivity. Qed.

(** ** Runs of the model *)

Example centers_2 :
  centers 2 = [ (2, 3); (5, -2); (3, -5); (-2, -3); (-5, 2); (-3, 5) ].
Proof. reflexivity. Qed.

Example wrap_2_03 : wrap 5 2 (0, 3) = Some (-2, 0).
Proof. reflexivity. Qed.

Example wrap_2_m30 : wrap 5 2 (-3, 0) = Some (2, -2).
Proof. reflexivity. Qed.


(** [Math.round] sends a tie up, and [| 0] wraps modulo [2^32]. *)
Example Math_round_ties :
  map Math_round [ 0.5; -0.5; 1.5; 2.5; -1.5; -2.5; -0.75; 0x1.fffffffffffffp-2 ]%float
  = [ 1; -0; 2; 3; -1; -2; -1; 0 ]%float.
Proof. vm_compute. reflexivity. Qed.

Example or0_wraps :
  map or0 [ 2.5; -2.5; 3e9; 2147483648; -2147483649; infinity; nan ]%float
  = [ 2; -2; -1294967296; -2147483648; 2147483647; 0; 0 ].
Proof. vm_compute. reflexivity. Qed.

(** A shuffle whose first draw is 5 and whose other draws are 0 swaps the
    first and the last direction. *)
Example shuffled_first_draw :
  (shuffled directions (fun k => if (k =? 0)%nat then 5%nat else O)).1
  = [ (-1, 0); (0, -1); (-1, 1); (1, -1); (1, 0); (0, 1) ].
Proof. reflexivity. Qed.

(** The walk of [generateWorld] in the region of radius 1 when no shuffle
    moves anything: three cells are marked, the latest first, and the
    fourth pull leaves the cell (1, -1) closed in the map. *)
Example generateWorld_1 :
  generateWorld_marked 8 1 zeros
  = Some (list_to_map
            [ (1, list_to_map [ (0, true); (-1, true) ]);
              (0, {[ -1 := true ]});
              (-1, {[ 1 := false ]}) ],
          [ (-1, 1); (-1, 0); (0, 1) ]).
Proof. vm_compute. reflexivity. Qed.

(** * The rest of the code, proofs *)

(** ** Rotations *)

Lemma rotation_S c (t : nat) : rotation c (S t) = anticlockwise (rotation c t).
Proof.
  unfold rotation, range. rewrite seq_S, fold_left_app. reflexivity.
Qed.

Lemma rotation_add c (a b : nat) :
  rotation (rotation c a) b = rotation c (a + b).
Proof.
  induction b as [|b IH]; [by rewrite Nat.add_0_r|].
  rewrite Nat.add_succ_r, !rotation_S. by rewrite IH.
Qed.

Lemma anticlockwise_distance a b :
  distance (anticlockwise a) (anticlockwise b) = distance a b.
Proof. destruct a, b. unfold distance, anticlockwise. lia. Qed.

(** X1. On a coordinate that is [small], six steps of [rotation] are the
    identity, three are the point reflection, and rotations compose by
    adding their steps. *)
Theorem rotation_cycle (c : axial) (a b : nat) :
  small_cell c ->
  rotation c 0 = c /\
  rotation c 6 = c /\
  rotation c 3 = (- c.1, - c.2) /\
  rotation (rotation c a) b = rotation c (a + b) /\
  rotation c (a + 6) = rotation c a.
Proof.
  intros _.
  assert (H6 : forall x, rotation x 6 = x).
  { intros [q r]. unfold rotation, range. cbn [seq fold_left anticlockwise].
    f_equal; lia. }
  split; [reflexivity|]. split; [apply H6|]. split.
  - destruct c as [q r]. unfold rotation, range. cbn [seq fold_left anticlockwise fst snd].
    f_equal; lia.
  - split; [apply rotation_add|]. by rewrite <- rotation_add, H6.
Qed.

Lemma rotation_cycle_witness :
  rotation (3, -1) 0 = (3, -1) /\
  rotation (3, -1) 6 = (3, -1) /\
  rotation (3, -1) 3 = (- (3, -1).1, - (3, -1).2) /\
  rotation (rotation (3, -1) 2) 5 = rotation (3, -1) (2 + 5) /\
  rotation (3, -1) (2 + 6) = rotation (3, -1) 2.
Proof. apply (rotation_cycle (3, -1) 2 5). unfold small_cell, small; simpl; lia. Defined.

(** X2. A rotation keeps the distance between two cells that are [small]. *)
Theorem rotation_isometry (a b : axial) (t : nat) :
  small_cell a -> small_cell b ->
  distance (rotation a t) (rotation b t) = distance a b.
Proof.
  intros _ _.
  induction t as [|t IH]; [reflexivity|].
  by rewrite !rotation_S, anticlockwise_distance.
Qed.

Lemma rotation_isometry_witness :
  distance (rotation (3, -1) 4) (rotation (-2, 5) 4) = distance (3, -1) (-2, 5).
Proof. apply (rotation_isometry (3, -1) (-2, 5) 4); unfold small_cell, small; simpl; lia. Defined.

(** X3. A rotation permutes the six directions. *)
Theorem rotation_permutes_directions (t : nat) :
  map (fun d => rotation d t) directions ≡ₚ directions.
Proof.
  induction t as [|t IH].
  - reflexivity.
  - transitivity (map anticlockwise (map (fun d => rotation d t) directions)).
    { rewrite map_map. erewrite map_ext; [reflexivity|]. intros d. apply rotation_S. }
    rewrite IH. unfold directions. cbn [map anticlockwise].
    apply NoDup_Permutation.
    + apply (bool_decide_unpack _). vm_compute. exact I.
    + apply (bool_decide_unpack _). vm_compute. exact I.
    + intros x. rewrite !elem_of_cons, !elem_of_nil. tauto.
Qed.

(** ** The distance and the lattice of the centers *)

(** The distance is at most [k] when the three cube differences are. *)
Lemma distance_le a b k :
  distance a b <= k <->
  (- k <= a.1 - b.1 <= k) /\ (- k <= a.2 - b.2 <= k) /\
  (- k <= a.1 + a.2 - (b.1 + b.2) <= k).
Proof. destruct a, b. unfold distance. simpl. lia. Qed.

(** X4. [distance] is a metric on the cells that are [small]. *)
Theorem distance_metric (a b c : axial) :
  small_cell a -> small_cell b -> small_cell c ->
  0 <= distance a b /\
  (distance a b = 0 <-> a = b) /\
  distance a b = distance b a /\
  distance a c <= distance a b + distance b c.
Proof.
  intros _ _ _.
  split; [apply distance_nonneg|]. split; [|split].
  - destruct a as [aq ar], b as [bq br]. unfold distance.
    split; [intros H; f_equal; lia | intros [= -> ->]; lia].
  - destruct a, b. unfold distance. lia.
  - pose proof (proj1 (distance_le a b (distance a b)) (Z.le_refl _)) as Hab.
    pose proof (proj1 (distance_le b c (distance b c)) (Z.le_refl _)) as Hbc.
    apply distance_le. lia.
Qed.

Lemma distance_metric_witness :
  0 <= distance (3, -1) (-2, 5) /\
  (distance (3, -1) (-2, 5) = 0 <-> (3, -1) = (-2, 5)) /\
  distance (3, -1) (-2, 5) = distance (-2, 5) (3, -1) /\
  distance (3, -1) (0, 7) <= distance (3, -1) (-2, 5) + distance (-2, 5) (0, 7).
Proof. apply (distance_metric (3, -1) (-2, 5) (0, 7)); unfold small_cell, small; simpl; lia. Defined.

(** X5. For cells and a vector that are [small], moving two cells by the
    vector keeps their distance, and the cells one apart from a cell are
    exactly the cell plus a direction. *)
Theorem neighbours_are_one_apart (a b v : axial) :
  small_cell a -> small_cell b -> small_cell v ->
  distance (add a v) (add b v) = distance a b /\
  (distance a b = 1 <-> exists d, d ∈ directions /\ a = add b d).
Proof.
  intros _ _ _.
  split.
  - destruct a, b, v. unfold distance, add. simpl. lia.
  - split; [apply adjacent_neighbour|].
    intros (d & Hd & ->). destruct b as [q r]. unfold directions in Hd.
    repeat (apply elem_of_cons in Hd as [->|Hd]);
      [unfold distance, add; simpl; lia ..|inversion Hd].
Qed.

Lemma neighbours_are_one_apart_witness :
  distance (add (3, -1) (4, 4)) (add (2, 0) (4, 4)) = distance (3, -1) (2, 0) /\
  (distance (3, -1) (2, 0) = 1 <-> exists d, d ∈ directions /\ (3, -1) = add (2, 0) d).
Proof. apply (neighbours_are_one_apart (3, -1) (2, 0) (4, 4)); unfold small_cell, small; simpl; lia. Defined.

Lemma lattice_zero radius : lattice radius (0, 0).
Proof. exists 0, 0. f_equal; lia. Qed.

Lemma lattice_add radius u v :
  lattice radius u -> lattice radius v -> lattice radius (u.1 + v.1, u.2 + v.2).
Proof.
  intros (m & n & ->) (m' & n' & ->). exists (m + m'), (n + n'). simpl. f_equal; lia.
Qed.

Lemma lattice_opp radius u : lattice radius u -> lattice radius (- u.1, - u.2).
Proof. intros (m & n & ->). exists (- m), (- n). simpl. f_equal; lia. Qed.

Lemma lattice_center radius d : d ∈ centers radius -> lattice radius d.
Proof.
  rewrite centers_eq. intros Hd.
  repeat (apply elem_of_cons in Hd as [->|Hd]); [..|inversion Hd].
  - exists 1, 0. f_equal; lia.
  - exists 0, 1. f_equal; lia.
  - exists (-1), 1. f_equal; lia.
  - exists (-1), 0. f_equal; lia.
  - exists 0, (-1). f_equal; lia.
  - exists 1, (-1). f_equal; lia.
Qed.

Lemma equivalent_refl radius a : equivalent radius a a.
Proof. unfold equivalent. replace (a.1 - a.1) with 0 by lia.
  replace (a.2 - a.2) with 0 by lia. apply lattice_zero. Qed.

Lemma equivalent_sym radius a b : equivalent radius a b -> equivalent radius b a.
Proof.
  unfold equivalent. intros H. apply lattice_opp in H. simpl in H.
  replace (b.1 - a.1) with (- (a.1 - b.1)) by lia.
  by replace (b.2 - a.2) with (- (a.2 - b.2)) by lia.
Qed.

Lemma equivalent_trans radius a b c :
  equivalent radius a b -> equivalent radius b c -> equivalent radius a c.
Proof.
  unfold equivalent. intros H1 H2. pose proof (lattice_add _ _ _ H1 H2) as H.
  simpl in H. replace (a.1 - c.1) with (a.1 - b.1 + (b.1 - c.1)) by lia.
  by replace (a.2 - c.2) with (a.2 - b.2 + (b.2 - c.2)) by lia.
Qed.

Lemma equivalent_add radius a b v :
  equivalent radius a b -> equivalent radius (add a v) (add b v).
Proof.
  unfold equivalent, add. simpl. intros H.
  replace (a.1 + v.1 - (b.1 + v.1)) with (a.1 - b.1) by lia.
  by replace (a.2 + v.2 - (b.2 + v.2)) with (a.2 - b.2) by lia.
Qed.

(** A vector of the lattice that is at most [2 * radius] long is null. *)
Lemma lattice_short radius v :
  0 <= radius -> lattice radius v -> distance v origin <= 2 * radius -> v = (0, 0).
Proof.
  intros Hr (m & n & ->) H. apply distance_le in H. unfold origin in H. simpl in H.
  assert (Hm : m = 0 /\ n = 0).
  { destruct (Z.lt_trichotomy m 0) as [Hm|[Hm|Hm]];
    destruct (Z.lt_trichotomy n 0) as [Hn|[Hn|Hn]]; try (split; lia); exfalso.
    - assert (m * radius <= - radius) by nia. assert (n * radius <= 0) by nia. lia.
    - subst n. assert (m * radius <= - radius) by nia. lia.
    - assert (m * radius <= - radius) by nia. assert (radius <= n * radius) by nia. lia.
    - subst m. assert (n * radius <= - radius) by nia. lia.
    - subst m. assert (radius <= n * radius) by nia. lia.
    - assert (radius <= m * radius) by nia. assert (n * radius <= - radius) by nia. lia.
    - subst n. assert (radius <= m * radius) by nia. lia.
    - assert (radius <= m * radius) by nia. assert (0 <= n * radius) by nia. lia. }
  destruct Hm as [-> ->]. f_equal; lia.
Qed.

Lemma wrap_equivalent radius : forall (fuel : nat) c c',
  wrap fuel radius c = Some c' -> equivalent radius c c'.
Proof.
  induction fuel as [|fuel IH]; intros c c' H; [discriminate|].
  simpl in H. destruct c as [q r]. unfold wrap_call in H.
  destruct (distance (q, r) origin <=? radius).
  - injection H as <-. apply equivalent_refl.
  - destruct (min_by_centers radius (distance (q, r))) as (d & Hd & Hin & _).
    rewrite Hd in H. destruct d as [dq dr]. apply IH in H.
    eapply equivalent_trans; [|exact H].
    unfold equivalent. simpl. apply lattice_center in Hin.
    replace (q - (q - dq)) with dq by lia. by replace (r - (r - dr)) with dr by lia.
Qed.

(** Two cells of the region that differ by a vector of the lattice are
    the same cell. *)
Lemma region_unique radius a b :
  0 <= radius -> distance a origin <= radius -> distance b origin <= radius ->
  equivalent radius a b -> a = b.
Proof.
  intros Hr Ha Hb E. apply lattice_short in E; [|done|].
  - destruct a, b. simpl in E. injection E as H1 H2. f_equal; lia.
  - apply (distance_le _ _ radius) in Ha, Hb. apply distance_le.
    unfold origin in *. simpl in *. lia.
Qed.


(** X6. With a radius that is not negative and coordinates that are
    [small], [wrap] returns; what it returns lies in the region and
    differs from the coordinate by a vector of the lattice of the
    centers; it is the only cell of the region that does; and two
    coordinates have the same image exactly when they differ by a vector
    of the lattice. Each class has exactly one cell in the region. *)
Theorem wrap_canonical (radius : Z) (a b : axial) :
  0 <= radius -> small radius -> small_cell a -> small_cell b ->
  exists a' b',
    (forall fuel : nat,
        (Z.to_nat (distance a origin - radius) < fuel)%nat ->
        wrap fuel radius a = Some a') /\
    (forall fuel : nat,
        (Z.to_nat (distance b origin - radius) < fuel)%nat ->
        wrap fuel radius b = Some b') /\
    distance a' origin <= radius /\
    equivalent radius a a' /\
    (forall x, distance x origin <= radius -> equivalent radius a x -> x = a') /\
    (a' = b' <-> equivalent radius a b).
Proof.
  intros Hr _ _ _.
  destruct (wrap_returns radius Hr (Z.to_nat (distance a origin - radius)) a)
    as (a' & Ha & Hina); [lia|].
  destruct (wrap_returns radius Hr (Z.to_nat (distance b origin - radius)) b)
    as (b' & Hb & Hinb); [lia|].
  pose proof (wrap_equivalent _ _ _ _ Ha) as Ea.
  pose proof (wrap_equivalent _ _ _ _ Hb) as Eb.
  exists a', b'.
  split; [intros fuel Hfuel; eapply wrap_fuel_mono; [exact Ha|lia]|].
  split; [intros fuel Hfuel; eapply wrap_fuel_mono; [exact Hb|lia]|].
  split; [done|]. split; [done|]. split; [|split].
  - intros x Hx Ex. apply (region_unique radius); [done..|].
    eapply equivalent_trans; [apply equivalent_sym, Ex|exact Ea].
  - intros <-. eapply equivalent_trans; [exact Ea|]. by apply equivalent_sym.
  - intros E. apply (region_unique radius); [done..|].
    eapply equivalent_trans; [apply equivalent_sym, Ea|].
    eapply equivalent_trans; [exact E|exact Eb].
Qed.

Lemma wrap_canonical_witness :
  exists a' b',
    (forall fuel : nat,
        (Z.to_nat (distance (0, 3)%Z origin - 2) < fuel)%nat ->
        wrap fuel 2 (0, 3) = Some a') /\
    (forall fuel : nat,
        (Z.to_nat (distance (-3, 0)%Z origin - 2) < fuel)%nat ->
        wrap fuel 2 (-3, 0) = Some b') /\
    distance a' origin <= 2 /\
    equivalent 2 (0, 3) a' /\
    (forall x, distance x origin <= 2 -> equivalent 2 (0, 3) x -> x = a') /\
    (a' = b' <-> equivalent 2 (0, 3) (-3, 0)).
Proof. apply (wrap_canonical 2 (0, 3) (-3, 0)); unfold small_cell, small; simpl; lia. Defined.

Lemma equivalent_rotation radius a b (t : nat) :
  equivalent radius a b -> equivalent radius (rotation a t) (rotation b t).
Proof.
  intros E. induction t as [|t IH]; [done|]. rewrite !rotation_S.
  destruct (rotation a t) as [q r], (rotation b t) as [q' r'].
  destruct IH as (m & n & H). simpl in H. injection H as H1 H2.
  exists (- n), (m + n). unfold anticlockwise. simpl. f_equal; lia.
Qed.

Lemma rotation_distance_origin a (t : nat) :
  distance (rotation a t) origin = distance a origin.
Proof.
  induction t as [|t IH]; [done|]. rewrite rotation_S, <- IH.
  change origin with (anticlockwise origin) at 1. apply anticlockwise_distance.
Qed.

(** X7. For a radius that is not negative and a coordinate that are
    [small], [wrap] commutes with [rotation]: the image of a rotated
    coordinate is the rotated image, although the nearest center is
    chosen by the order of the centers when two are as near. *)
Theorem wrap_commutes_with_rotation (radius : Z) (c c' : axial) (t fuel : nat) :
  0 <= radius -> small radius -> small_cell c ->
  wrap fuel radius c = Some c' ->
  exists fuel' : nat, wrap fuel' radius (rotation c t) = Some (rotation c' t).
Proof.
  intros Hr _ _ Hw.
  destruct (wrap_returns radius Hr
              (Z.to_nat (distance (rotation c t) origin)) (rotation c t))
    as (r & Hwr & Hin); [pose proof (distance_nonneg (rotation c t) origin); lia|].
  eexists. rewrite Hwr. f_equal. apply (region_unique radius); [done..| |].
  - rewrite rotation_distance_origin. by eapply wrap_result_inside.
  - eapply equivalent_trans.
    + apply equivalent_sym. by eapply wrap_equivalent.
    + apply equivalent_rotation. by eapply wrap_equivalent.
Qed.

Lemma wrap_commutes_with_rotation_witness :
  exists fuel' : nat, wrap fuel' 2 (rotation (0, 3) 1) = Some (rotation (-2, 0) 1).
Proof.
  apply (wrap_commutes_with_rotation 2 (0, 3) (-2, 0) 1 5);
    [lia | unfold small; lia | unfold small_cell, small; simpl; lia | reflexivity].
Defined.

Lemma directions_opp d : d ∈ directions -> (- d.1, - d.2) ∈ directions.
Proof.
  unfold directions. intros Hd.
  repeat (apply elem_of_cons in Hd as [->|Hd]); [..|inversion Hd];
    simpl; rewrite !elem_of_cons; tauto.
Qed.

(** X8. For a radius that is not negative and [small], the wrapped
    neighbourhood is symmetric inside the region: a wrapped step from [a]
    to [b] can be walked back. *)
Theorem wrapped_step_sym (radius : Z) (a b : axial) :
  0 <= radius -> small radius ->
  distance a origin <= radius ->
  wrapped_step radius a b ->
  wrapped_step radius b a.
Proof.
  intros Hr _ Ha (d & fuel & Hd & Hw).
  pose proof (wrap_equivalent _ _ _ _ Hw) as E.
  set (d' := (- d.1, - d.2)).
  destruct (wrap_returns radius Hr (Z.to_nat (distance (add b d') origin - radius))
              (add b d')) as (x & Hx & Hin); [lia|].
  exists d', (S (Z.to_nat (distance (add b d') origin - radius))).
  split; [by apply directions_opp|]. rewrite Hx. f_equal.
  assert (Ex : equivalent radius x a).
  { apply equivalent_sym. eapply equivalent_trans; [|apply (wrap_equivalent _ _ _ _ Hx)].
    apply (equivalent_add _ _ _ d') in E.
    replace (add (add a d) d') with a in E; [done|].
    destruct a, d. unfold add, d'. simpl. f_equal; lia. }
  apply lattice_short in Ex; [|done|].
  - destruct x, a. simpl in Ex. injection Ex as H1 H2. f_equal; lia.
  - apply (distance_le _ _ radius) in Ha, Hin. apply distance_le.
    unfold origin in *. simpl in *. lia.
Qed.

Lemma wrapped_step_sym_witness : wrapped_step 2 (-2, 0) (0, 2).
Proof.
  apply (wrapped_step_sym 2 (0, 2) (-2, 0)).
  - lia.
  - unfold small. lia.
  - vm_compute. discriminate.
  - exists (0, 1), 5%nat. split; [|reflexivity].
    apply (bool_decide_unpack _). vm_compute. exact I.
Defined.

(** X9. The shift [x >> 1] of the offset conversions is the floor of the
    half exactly for the columns that fit in 32 bits; elsewhere the
    column is first wrapped modulo [2^32]. *)
Theorem sar_is_floor_half (x : Z) :
  (sar x 1 = x / 2 <-> - 2 ^ 31 <= x < 2 ^ 31) /\
  sar x 1 = (to_int32 x) / 2 /\
  - 2 ^ 31 <= to_int32 x < 2 ^ 31 /\
  (to_int32 x - x) mod 2 ^ 32 = 0.
Proof.
  unfold sar, to_int32. rewrite Z.shiftr_div_pow2 by lia.
  change (2 ^ 1) with 2. change (2 ^ 31) with 2147483648.
  change (2 ^ 32) with 4294967296.
  repeat split; try (Z.div_mod_to_equations; lia).
Qed.

(** ** The cells of the region *)

Lemma elem_of_zrange a n x : x ∈ zrange a n <-> a <= x < a + Z.of_nat n.
Proof.
  unfold zrange. rewrite list_elem_of_In, in_map_iff. split.
  - intros (k & <- & Hk%in_seq). lia.
  - intros Hx. exists (Z.to_nat (x - a)). split; [lia|]. apply in_seq. lia.
Qed.

Lemma NoDup_zrange a n : NoDup (zrange a n).
Proof.
  unfold zrange. apply NoDup_fmap_2_strong.
  - intros x y _ _. lia.
  - apply NoDup_ListNoDup, seq_NoDup.
Qed.

Lemma length_zrange a n : length (zrange a n) = n.
Proof. unfold zrange. by rewrite length_map, length_seq. Qed.

Lemma zsum_app l k : zsum (l ++ k) = zsum l + zsum k.
Proof. induction l as [|x l IH]; simpl; lia. Qed.

Lemma length_bind_zsum {A B} (f : A -> list B) (l : list A) :
  Z.of_nat (length (l ≫= f)) = zsum (map (fun x => Z.of_nat (length (f x))) l).
Proof.
  induction l as [|x l IH]; [done|].
  rewrite bind_cons, length_app. simpl. lia.
Qed.

Lemma elem_of_region radius c : c ∈ region radius <-> distance c origin <= radius.
Proof.
  rewrite distance_le. unfold region, origin. destruct c as [q r]. simpl.
  rewrite list_elem_of_bind. split.
  - intros (q' & Hr & Hq). apply elem_of_zrange in Hq.
    apply list_elem_of_fmap in Hr as (r' & [= -> ->] & Hr).
    apply elem_of_zrange in Hr. lia.
  - intros H. exists q. split.
    + apply list_elem_of_fmap. exists r. split; [done|].
      apply elem_of_zrange. lia.
    + apply elem_of_zrange. lia.
Qed.

Lemma NoDup_region radius : NoDup (region radius).
Proof.
  unfold region. apply NoDup_bind.
  - intros q1 q2 c _ _ H1 H2.
    apply list_elem_of_fmap in H1 as (r1 & -> & _).
    apply list_elem_of_fmap in H2 as (r2 & [= -> _] & _). done.
  - intros q _. apply NoDup_fmap_2_strong; [|apply NoDup_zrange].
    intros x y _ _. congruence.
  - apply NoDup_zrange.
Qed.

Lemma columns_left (radius : Z) (n : nat) :
  Z.of_nat n <= radius ->
  2 * zsum (map (fun k => 2 * radius + 1 - Z.abs (- radius + Z.of_nat k)) (seq 0 n))
  = Z.of_nat n * (2 * radius + 2) + Z.of_nat n * (Z.of_nat n - 1).
Proof.
  induction n as [|n IH]; intros Hn; [done|].
  rewrite seq_S, map_app, zsum_app. simpl zsum.
  rewrite Z.mul_add_distr_l, IH by lia. nia.
Qed.

Lemma columns_right (radius : Z) (n : nat) :
  0 <= radius -> Z.of_nat n <= radius + 1 ->
  2 * zsum (map (fun k => 2 * radius + 1 - Z.abs (- radius + Z.of_nat k))
              (seq (Z.to_nat radius) n))
  = 2 * Z.of_nat n * (2 * radius + 1) - Z.of_nat n * (Z.of_nat n - 1).
Proof.
  intros Hr. induction n as [|n IH]; intros Hn; [done|].
  rewrite seq_S, map_app, zsum_app. simpl zsum.
  rewrite Z.mul_add_distr_l, IH by lia. nia.
Qed.

(** X10. Up to the radius [2^25], where the code computes it exactly,
    [area(radius)] is the number of cells of the region: the cells at a
    [distance] of [radius] at most from the origin. *)
Theorem area_counts_region (radius : Z) :
  0 <= radius <= 2 ^ 25 ->
  NoDup (region radius) /\
  (forall c, c ∈ region radius <-> distance c origin <= radius) /\
  Z.of_nat (length (region radius)) = area radius.
Proof.
  intros [Hr _]. split; [apply NoDup_region|]. split; [apply elem_of_region|].
  unfold region. rewrite length_bind_zsum.
  erewrite map_ext.
  2:{ intros q. rewrite length_map, length_zrange. reflexivity. }
  unfold zrange. rewrite map_map.
  replace (Z.to_nat (2 * radius + 1))
    with (Z.to_nat radius + Z.to_nat (radius + 1))%nat by lia.
  rewrite seq_app, map_app, zsum_app. simpl (0 + _)%nat.
  assert (Hext : forall l : list nat,
             (forall k, k ∈ l -> Z.of_nat k <= 2 * radius) ->
             map (fun k => Z.of_nat (Z.to_nat
                    (2 * radius + 1 - Z.abs (- radius + Z.of_nat k)))) l
             = map (fun k => 2 * radius + 1 - Z.abs (- radius + Z.of_nat k)) l).
  { intros l Hl. apply map_ext_in. intros k Hk%list_elem_of_In%Hl. lia. }
  rewrite !Hext.
  2:{ intros k Hk%list_elem_of_In%in_seq. lia. }
  2:{ intros k Hk%list_elem_of_In%in_seq. lia. }
  pose proof (columns_left radius (Z.to_nat radius)) as Hl.
  pose proof (columns_right radius (Z.to_nat (radius + 1)) Hr) as Hrt.
  unfold area. nia.
Qed.

Lemma area_counts_region_witness :
  NoDup (region 2) /\
  (forall c, c ∈ region 2 <-> distance c origin <= 2) /\
  Z.of_nat (length (region 2)) = area 2.
Proof. apply (area_counts_region 2). lia. Defined.

(** ** Ranges *)

Lemma range2_spec (step : Z) : 0 < step ->
  forall (fuel : nat) (start stop : Z),
    stop - start <= Z.of_nat fuel * step ->
    exists l, range2 (S fuel) start stop step = Some l /\
              (forall k : nat, l !! k =
                 if start + Z.of_nat k * step <? stop
                 then Some (start + Z.of_nat k * step) else None).
Proof.
  intros Hstep.
  assert (Hend : forall start stop, stop <= start ->
            forall k : nat, (if start + Z.of_nat k * step <? stop
                             then Some (start + Z.of_nat k * step) else None) = None).
  { intros start stop H k. assert (0 <= Z.of_nat k * step) by nia.
    destruct (start + Z.of_nat k * step <? stop) eqn:E'; [|done].
    apply Z.ltb_lt in E'. lia. }
  induction fuel as [|fuel IH]; intros start stop Hfuel.
  - exists []. split; [|intros k; rewrite Hend by lia; done].
    simpl in Hfuel. cbn [range2]. destruct (start <? stop) eqn:E; [|done].
    apply Z.ltb_lt in E. lia.
  - change (range2 (S (S fuel)) start stop step)
      with (if start <? stop
            then cons start <$> range2 (S fuel) (start + step) stop step
            else Some []).
    destruct (start <? stop) eqn:E.
    + destruct (IH (start + step) stop) as (l & -> & Hl); [lia|].
      exists (start :: l). split; [done|]. intros [|k].
      * change (Z.of_nat 0) with 0. rewrite Z.mul_0_l, Z.add_0_r, E. done.
      * change ((start :: l) !! S k) with (l !! k). rewrite Hl, Nat2Z.inj_succ.
        replace (start + Z.succ (Z.of_nat k) * step)
          with (start + step + Z.of_nat k * step) by lia. done.
    + exists []. split; [done|]. intros k. apply Z.ltb_ge in E.
      rewrite Hend by lia. done.
Qed.

Lemma range2_diverges (step : Z) : step <= 0 ->
  forall (fuel : nat) (start stop : Z), start < stop ->
    range2 fuel start stop step = None.
Proof.
  intros Hstep. induction fuel as [|fuel IH]; intros start stop H; [done|].
  cbn [range2]. apply Z.ltb_lt in H as E. rewrite E.
  rewrite IH by lia. done.
Qed.

(** X11. For integers [start], [stop] and [step] that are [small]: with a
    positive step [range2] yields [start + k * step] for every [k] that
    keeps it below [stop], and nothing else; [range(n)] is the case of 0,
    [n] and 1; with a step that is not positive and [start < stop] the
    loop never ends. *)
Theorem range2_contents (start stop step : Z) (fuel : nat) :
  small start -> small stop -> small step ->
  (0 < step -> stop - start <= Z.of_nat fuel * step ->
   exists l, range2 (S fuel) start stop step = Some l /\
             (forall k : nat, l !! k =
                if start + Z.of_nat k * step <? stop
                then Some (start + Z.of_nat k * step) else None)) /\
  (step <= 0 -> start < stop -> range2 fuel start stop step = None) /\
  (forall n : nat, small (Z.of_nat n) ->
                   range2 (S n) 0 (Z.of_nat n) 1 = Some (Z.of_nat <$> range n)).
Proof.
  intros _ _ _.
  split; [intros; by apply range2_spec|]. split; [intros; by apply range2_diverges|].
  intros n _. destruct (range2_spec 1 ltac:(lia) n 0 (Z.of_nat n)) as (l & -> & Hl); [lia|].
  f_equal. apply list_eq. intros k. rewrite Hl. unfold range.
  rewrite list_lookup_fmap. destruct (decide (k < n)%nat) as [Hk|Hk].
  - rewrite lookup_seq_lt by done. simpl.
    replace (0 + Z.of_nat k * 1 <? Z.of_nat n) with true by (symmetry; apply Z.ltb_lt; lia).
    f_equal. lia.
  - rewrite lookup_seq_ge by lia. simpl.
    replace (0 + Z.of_nat k * 1 <? Z.of_nat n) with false by (symmetry; apply Z.ltb_ge; lia).
    done.
Qed.

Lemma range2_contents_witness :
  (0 < 3 -> 11 - 2 <= Z.of_nat 5 * 3 ->
   exists l, range2 6 2 11 3 = Some l /\
             (forall k : nat, l !! k =
                if 2 + Z.of_nat k * 3 <? 11
                then Some (2 + Z.of_nat k * 3) else None)) /\
  (3 <= 0 -> 2 < 11 -> range2 5 2 11 3 = None) /\
  (forall n : nat, small (Z.of_nat n) ->
                   range2 (S n) 0 (Z.of_nat n) 1 = Some (Z.of_nat <$> range n)).
Proof. apply (range2_contents 2 11 3 5); unfold small; lia. Defined.

(** ** Taking and skipping *)

Lemma inject_Z_pred (a : Z) : (inject_Z (a - 1) == inject_Z a - 1)%Q.
Proof.
  replace (a - 1) with (a + -1) by lia. rewrite inject_Z_plus. reflexivity.
Qed.

Lemma Qceiling_pred (n : Q) : Qceiling (n - 1) = Qceiling n - 1.
Proof.
  pose proof (Qle_ceiling n) as H1. pose proof (Qceiling_lt n) as H2.
  pose proof (Qle_ceiling (n - 1)) as H3. pose proof (Qceiling_lt (n - 1)) as H4.
  rewrite inject_Z_pred in H2, H4.
  assert (Ha : (inject_Z (Qceiling (n - 1)) < inject_Z (Qceiling n))%Q).
  { revert H1 H2 H3 H4. generalize (inject_Z (Qceiling (n - 1))), (inject_Z (Qceiling n)).
    intros a b H1 H2 H3 H4. lra. }
  assert (Hb : (inject_Z (Qceiling n) < inject_Z (Qceiling (n - 1)) + 2)%Q).
  { revert H1 H2 H3 H4. generalize (inject_Z (Qceiling (n - 1))), (inject_Z (Qceiling n)).
    intros a b H1 H2 H3 H4. lra. }
  change 2%Q with (inject_Z 2) in Hb. rewrite <- inject_Z_plus in Hb.
  rewrite <- Zlt_Qlt in Ha, Hb. lia.
Qed.

Lemma Qceiling_positive (n : Q) : Qpositive n = true <-> 0 < Qceiling n.
Proof.
  rewrite Qpositive_spec.
  pose proof (Qle_ceiling n) as H1. pose proof (Qceiling_lt n) as H2.
  rewrite inject_Z_pred in H2.
  split; intros H.
  - assert (Ha : (inject_Z 0 < inject_Z (Qceiling n))%Q).
    { change (inject_Z 0) with 0%Q. revert H1. generalize (inject_Z (Qceiling n)).
      intros a H1. lra. }
    by rewrite <- Zlt_Qlt in Ha.
  - assert (Ha : (inject_Z 1 <= inject_Z (Qceiling n))%Q) by (rewrite <- Zle_Qle; lia).
    change (inject_Z 1) with 1%Q in Ha. revert H2 Ha. generalize (inject_Z (Qceiling n)).
    intros a H2 Ha. lra.
Qed.

(** X12. [take(array, n)] is the first [ceil(n)] values of the array and
    [skip(array, n)] is the rest, for every number [n], negative or with
    a fraction: together they give the array back. *)
Theorem take_skip {A} (l : list A) (n : Q) :
  take l n = firstn (Z.to_nat (Qceiling n)) l /\
  skip l n = skipn (Z.to_nat (Qceiling n)) l /\
  take l n ++ skip l n = l.
Proof.
  assert (H : take l n = firstn (Z.to_nat (Qceiling n)) l /\
              skip l n = skipn (Z.to_nat (Qceiling n)) l).
  { revert n. induction l as [|x l IH]; intros n.
    - simpl. by rewrite firstn_nil, skipn_nil.
    - cbn [take skip]. destruct (IH (n - 1)%Q) as [IH1 IH2].
      rewrite Qceiling_pred in IH1, IH2.
      destruct (Qpositive n) eqn:E.
      + apply Qceiling_positive in E.
        replace (Z.to_nat (Qceiling n)) with (S (Z.to_nat (Qceiling n - 1))) by lia.
        simpl. by rewrite IH1, IH2.
      + assert (Hn : ~ 0 < Qceiling n) by (rewrite <- Qceiling_positive; congruence).
        replace (Z.to_nat (Qceiling n)) with O by lia.
        replace (Z.to_nat (Qceiling n - 1)) with O in IH2 by lia.
        simpl. rewrite IH2. done. }
  destruct H as [-> ->]. split; [done|]. split; [done|]. apply firstn_skipn.
Qed.

(** X13. [take_while] keeps the longest prefix whose values all satisfy the
    predicate. *)
Theorem take_while_prefix {A} (l : list A) (p : A -> bool) :
  exists rest,
    l = take_while l p ++ rest /\
    Forall (fun x => p x = true) (take_while l p) /\
    (forall x, head rest = Some x -> p x = false).
Proof.
  induction l as [|x l (rest & Hl & Hall & Hhead)].
  - exists []. simpl. split; [done|]. split; [constructor|]. intros x [=].
  - cbn [take_while]. destruct (p x) eqn:E.
    + exists rest. split; [by rewrite <- app_comm_cons, <- Hl|].
      split; [by constructor|done].
    + exists (x :: l). split; [done|]. split; [constructor|].
      intros y [= <-]. done.
Qed.

(** ** Modulo and clamp *)

Lemma rem_rem_mod (x y : Z) : y <> 0 -> Z.rem (Z.rem x y + y) y = x mod y.
Proof.
  intros Hy.
  pose proof (Z.rem_bound_abs x y Hy) as B1.
  pose proof (Z.rem_sign_mul x y Hy) as S1.
  pose proof (Z.quot_rem' x y) as E1.
  set (r := Z.rem x y) in *.
  pose proof (Z.rem_bound_abs (r + y) y Hy) as B2.
  pose proof (Z.rem_sign_mul (r + y) y Hy) as S2.
  pose proof (Z.quot_rem' (r + y) y) as E2.
  set (r2 := Z.rem (r + y) y) in *.
  destruct (Z.lt_trichotomy 0 y) as [Hp|[Hp|Hp]]; [|lia|].
  - apply Z.mod_unique_pos with (q := Z.quot x y + Z.quot (r + y) y - 1); nia.
  - apply Z.mod_unique_neg with (q := Z.quot x y + Z.quot (r + y) y - 1); nia.
Qed.

(** X14. For integers that are [small] and a divisor that is not 0,
    [mod(x, y)] is the floored modulo: it has the sign of [y], is less
    than [y] in absolute value and differs from [x] by a multiple of
    [y]; for the divisor 0 it is [NaN]. *)
Theorem mod_floored (x y : Z) :
  small x -> small y ->
  mod_ x 0 = None /\
  (y <> 0 ->
   exists r k,
     mod_ x y = Some r /\ x = k * y + r /\
     (0 < y -> 0 <= r < y) /\ (y < 0 -> y < r <= 0)).
Proof.
  intros _ _.
  split; [reflexivity|]. intros Hy.
  exists (x mod y), (x / y). split; [|split; [|split]].
  - unfold mod_, rem. apply Z.eqb_neq in Hy as E. rewrite E.
    cbn [mbind option_bind]. f_equal. by apply rem_rem_mod.
  - rewrite Z.mul_comm. by apply Z.div_mod.
  - intros H. by apply Z.mod_pos_bound.
  - intros H. by apply Z.mod_neg_bound.
Qed.

Lemma mod_floored_witness :
  mod_ (-7) 0 = None /\
  (3 <> 0 ->
   exists r k,
     mod_ (-7) 3 = Some r /\ -7 = k * 3 + r /\
     (0 < 3 -> 0 <= r < 3) /\ (3 < 0 -> 3 < r <= 0)).
Proof. apply (mod_floored (-7) 3); unfold small; lia. Defined.

(** X15. With [min <= max], [clamp] returns a value of [[min, max]], the
    nearest to [n]; with [min > max] it returns [max] whatever [n] is. *)
Theorem clamp_range (n min max : Z) :
  (min <= max ->
   min <= clamp n min max <= max /\
   (min <= n <= max -> clamp n min max = n) /\
   (n < min -> clamp n min max = min) /\
   (max < n -> clamp n min max = max)) /\
  (max < min -> clamp n min max = max).
Proof. unfold clamp. lia. Qed.

(** ** Chunks *)

Lemma slice_inside {A} (array : list A) (i n : Z) :
  0 <= i < Z.of_nat (length array) -> 1 <= n ->
  slice array i (i + n)
  = firstn (Z.to_nat n) (skipn (Z.to_nat i) array) /\
  slice array i (i + n) ++ skipn (Z.to_nat (i + n)) array
  = skipn (Z.to_nat i) array /\
  (1 <= length (slice array i (i + n)))%nat /\
  Z.of_nat (length (slice array i (i + n))) <= n /\
  (i + n <= Z.of_nat (length array) ->
   Z.of_nat (length (slice array i (i + n))) = n).
Proof.
  intros Hi Hn. unfold slice.
  replace (i <? 0) with false by (symmetry; apply Z.ltb_ge; lia).
  replace (i + n <? 0) with false by (symmetry; apply Z.ltb_ge; lia).
  rewrite (Z.min_l i) by lia.
  assert (Hlen : length (skipn (Z.to_nat i) array)
                 = (length array - Z.to_nat i)%nat) by apply length_skipn.
  destruct (Z_le_gt_dec (i + n) (Z.of_nat (length array))) as [Hle|Hgt].
  - rewrite Z.min_l by lia. replace (i + n - i) with n by lia.
    split; [done|]. split.
    + replace (Z.to_nat (i + n)) with (Z.to_nat i + Z.to_nat n)%nat by lia.
      rewrite <- drop_drop. apply firstn_skipn.
    + rewrite length_firstn, Hlen. lia.
  - rewrite Z.min_r by lia.
    rewrite !(firstn_all2 (skipn (Z.to_nat i) array)) by (rewrite Hlen; lia).
    split; [done|]. split.
    + rewrite (skipn_all2 (n := Z.to_nat (i + n))) by lia. by rewrite app_nil_r.
    + rewrite Hlen. lia.
Qed.

Lemma chunks_from_spec {A} (array : list A) (n : Z) : 1 <= n ->
  forall (fuel : nat) (i : Z),
    0 <= i -> Z.of_nat (length array) - i <= Z.of_nat fuel ->
    exists cs,
      chunks_from (S fuel) array n i = Some cs /\
      concat cs = skipn (Z.to_nat i) array /\
      Forall (fun c => (1 <= length c)%nat /\ Z.of_nat (length c) <= n) cs /\
      (forall (k : nat) c, cs !! k = Some c -> (S k < length cs)%nat ->
                           Z.of_nat (length c) = n).
Proof.
  intros Hn. induction fuel as [|fuel IH]; intros i Hi Hfuel.
  - exists []. cbn [chunks_from].
    replace (i <? Z.of_nat (length array)) with false
      by (symmetry; apply Z.ltb_ge; lia).
    split; [done|]. split; [|split; [constructor|intros k c [=]]].
    rewrite skipn_all2 by lia. done.
  - change (chunks_from (S (S fuel)) array n i)
      with (if i <? Z.of_nat (length array)
            then cons (slice array i (i + n)) <$> chunks_from (S fuel) array n (i + n)
            else Some []).
    destruct (i <? Z.of_nat (length array)) eqn:E.
    + apply Z.ltb_lt in E.
      destruct (IH (i + n)) as (cs & -> & Hcat & Hall & Hfull); [lia..|].
      destruct (slice_inside array i n) as (_ & Happ & H1 & H2 & H3); [lia..|].
      exists (slice array i (i + n) :: cs). split; [done|]. split; [|split].
      * simpl. by rewrite Hcat.
      * by constructor.
      * intros [|k] c Hc Hk; simpl in Hc, Hk.
        -- injection Hc as <-. apply H3.
           destruct cs as [|c' cs]; [simpl in Hk; lia|].
           destruct (Z_le_gt_dec (i + n) (Z.of_nat (length array))); [done|].
           exfalso. simpl in Hcat. rewrite skipn_all2 in Hcat by lia.
           apply app_eq_nil in Hcat as [-> _].
           apply Forall_inv in Hall. simpl in Hall. lia.
        -- apply (Hfull k c Hc). lia.
    + apply Z.ltb_ge in E. exists [].
      split; [done|]. split; [|split; [constructor|intros k c [=]]].
      rewrite skipn_all2 by lia. done.
Qed.

Lemma chunks_from_diverges {A} (array : list A) (n : Z) :
  n <= 0 -> array <> [] ->
  forall (fuel : nat) (i : Z), i <= 0 -> chunks_from fuel array n i = None.
Proof.
  intros Hn Hne. induction fuel as [|fuel IH]; intros i Hi; [done|].
  cbn [chunks_from].
  replace (i <? Z.of_nat (length array)) with true.
  - rewrite IH by lia. done.
  - symmetry. apply Z.ltb_lt. destruct array; [done|]. simpl. lia.
Qed.

(** X16. With a size of at least 1, [chunks] cuts the array into pieces
    that give it back when put end to end; no piece is empty or longer
    than the size, and all but the last have the size. With a size that
    is not positive and an array that is not empty the loop never ends. *)
Theorem chunks_concat {A} (array : list A) (n : Z) (fuel : nat) :
  (1 <= n -> (length array < fuel)%nat ->
   exists cs,
     chunks fuel array n = Some cs /\
     concat cs = array /\
     Forall (fun c => (1 <= length c)%nat /\ Z.of_nat (length c) <= n) cs /\
     (forall (k : nat) c, cs !! k = Some c -> (S k < length cs)%nat ->
                          Z.of_nat (length c) = n)) /\
  (n <= 0 -> array <> [] -> chunks fuel array n = None).
Proof.
  split.
  - intros Hn Hfuel. destruct fuel as [|fuel]; [lia|].
    destruct (chunks_from_spec array n Hn fuel 0) as (cs & Hcs & Hcat & H); [lia..|].
    exists cs. split; [done|]. split; [|done]. by rewrite Hcat.
  - intros Hn Hne. by apply chunks_from_diverges.
Qed.

(** ** The first maximum, the mode *)

Lemma argmax_first (l : list Z) : forall (k : nat) (acc : option nat * option Z),
  let res := fold_left argmax_step (combine (seq k (length l)) l) acc in
  (res = acc /\ forall y, y ∈ l -> gt_acc y acc.2 = false) \/
  (exists (i : nat) x,
      l !! i = Some x /\ res = (Some (k + i)%nat, Some x) /\
      gt_acc x acc.2 = true /\
      (forall (j : nat) y, (j < i)%nat -> l !! j = Some y -> y < x) /\
      (forall y, y ∈ l -> y <= x)).
Proof.
  induction l as [|a l IH]; intros k acc.
  - left. split; [done|]. intros y Hy. inversion Hy.
  - cbn [length seq combine fold_left]. cbv zeta.
    assert (Hacc : argmax_step acc (k, a)
                   = if gt_acc a acc.2 then (Some k, Some a) else acc) by reflexivity.
    rewrite Hacc. clear Hacc.
    destruct (gt_acc a acc.2) eqn:E;
      [specialize (IH (S k) (Some k, Some a)) | specialize (IH (S k) acc)];
      cbv zeta in IH; simpl in IH.
    + right. destruct IH as [[Hres Hall]|(i & x & Hi & Hres & Hgt & Hfirst & Hmax)].
      * exists O, a. split; [done|]. split; [by rewrite Hres, Nat.add_0_r|].
        split; [done|]. split; [intros j y Hj; lia|].
        intros y Hy. apply elem_of_cons in Hy as [->|Hy]; [lia|].
        apply Hall in Hy. simpl in Hy. apply Z.ltb_ge in Hy. lia.
      * apply Z.ltb_lt in Hgt. exists (S i), x. split; [done|].
        split; [rewrite Hres; do 2 f_equal; lia|]. split.
        { destruct (acc.2) as [m|]; simpl in *; [|done].
          apply Z.ltb_lt in E. apply Z.ltb_lt. lia. }
        split.
        { intros [|j] y Hj Hy; simpl in Hy; [injection Hy as <-; lia|].
          apply (Hfirst j y); [lia|done]. }
        intros y Hy. apply elem_of_cons in Hy as [->|Hy]; [lia|by apply Hmax].
    + destruct IH as [[Hres Hall]|(i & x & Hi & Hres & Hgt & Hfirst & Hmax)].
      * left. split; [done|]. intros y Hy.
        apply elem_of_cons in Hy as [->|Hy]; [done|by apply Hall].
      * right. exists (S i), x. split; [done|].
        split; [rewrite Hres; do 2 f_equal; lia|]. split; [done|].
        assert (Hax : a < x).
        { destruct (acc.2) as [m|]; simpl in *; [|done].
          apply Z.ltb_ge in E. apply Z.ltb_lt in Hgt. lia. }
        split.
        { intros [|j] y Hj Hy; simpl in Hy; [injection Hy as <-; lia|].
          apply (Hfirst j y); [lia|done]. }
        intros y Hy. apply elem_of_cons in Hy as [->|Hy]; [lia|by apply Hmax].
Qed.

Lemma max_by_first_spec {A} (array : list A) (key : A -> Z) :
  array <> [] ->
  exists (i : nat) x,
    max_by array key = Some x /\ array !! i = Some x /\
    (forall y, y ∈ array -> key y <= key x) /\
    (forall (j : nat) y, (j < i)%nat -> array !! j = Some y -> key y < key x).
Proof.
  intros Hne. unfold max_by, argmax.
  destruct (argmax_first (map key array) O (None, None))
    as [[Hres Hall]|(i & m & Hi & Hres & _ & Hfirst & Hmax)];
    fold argmax_step in *; cbv zeta in *.
  - exfalso. destruct array as [|a array]; [done|].
    specialize (Hall (key a)). simpl in Hall. discriminate Hall. left.
  - rewrite Hres. simpl. rewrite list_lookup_fmap in Hi.
    destruct (array !! i) as [x|] eqn:Hx; [|discriminate]. simpl in Hi.
    injection Hi as Hi. exists i, x. split; [done|]. split; [done|]. split.
    + intros y Hy. rewrite Hi. apply Hmax. by apply list_elem_of_fmap_2.
    + intros j y Hj Hy. rewrite Hi. apply (Hfirst j); [done|].
      by rewrite list_lookup_fmap, Hy.
Qed.


Lemma count_fold (l : list Z) : forall (f : gmap Z Z) (x : Z),
  fold_left count_step l f !! x =
    match f !! x with
    | Some v => Some (v + Z.of_nat (count_occ Z.eq_dec l x))
    | None =>
        match count_occ Z.eq_dec l x with
        | O => None
        | S c => Some (Z.of_nat c)
        end
    end.
Proof.
  induction l as [|e l IH]; intros f x.
  - simpl. destruct (f !! x); [f_equal; lia|done].
  - cbn [fold_left count_occ]. rewrite IH. unfold count_step.
    destruct (Z.eq_dec e x) as [->|Hne].
    + destruct (f !! x) as [v|] eqn:E.
      * rewrite lookup_insert_eq. f_equal. lia.
      * rewrite lookup_insert_eq. done.
    + destruct (f !! e) as [v|] eqn:E; by rewrite lookup_insert_ne.
Qed.

(** X18. [mode] returns [undefined] for no entry and otherwise the first of
    the most frequent entries: no entry occurs more often, and every
    entry before it occurs strictly less. *)
Theorem mode_most_frequent (l : list Z) :
  mode [] = None /\
  (l <> [] ->
   exists (i : nat) x,
     mode l = Some x /\ l !! i = Some x /\
     (forall y, (count_occ Z.eq_dec l y <= count_occ Z.eq_dec l x)%nat) /\
     (forall (j : nat) y, (j < i)%nat -> l !! j = Some y ->
                          (count_occ Z.eq_dec l y < count_occ Z.eq_dec l x)%nat)).
Proof.
  split; [reflexivity|]. intros Hne. unfold mode. cbv zeta.
  fold count_step.
  set (key := fun n => default 0 (fold_left count_step l ∅ !! n)).
  assert (Hkey : forall y, y ∈ l ->
                           key y = Z.of_nat (count_occ Z.eq_dec l y) - 1).
  { intros y Hy. unfold key. rewrite count_fold, lookup_empty.
    apply list_elem_of_In in Hy. apply (count_occ_In Z.eq_dec) in Hy.
    destruct (count_occ Z.eq_dec l y); simpl; lia. }
  destruct (max_by_first_spec l key Hne) as (i & x & Hx & Hi & Hmax & Hfirst).
  assert (Hxl : x ∈ l) by (by eapply list_elem_of_lookup_2).
  exists i, x. split; [done|]. split; [done|]. split.
  - intros y. destruct (decide (y ∈ l)) as [Hy|Hy].
    + specialize (Hmax y Hy). rewrite !Hkey in Hmax by done. lia.
    + rewrite list_elem_of_In in Hy. apply (count_occ_not_In Z.eq_dec) in Hy. lia.
  - intros j y Hj Hy. specialize (Hfirst j y Hj Hy).
    rewrite !Hkey in Hfirst; [lia|done|by eapply list_elem_of_lookup_2].
Qed.

(** ** Extent, choice, products and combinations *)

Lemma extent_fold (l : list Z) : forall m M : Z,
  m <= M ->
  exists m' M',
    fold_left
      (fun mm x =>
         (Some (match mm.1 with Some m => Z.min m x | None => x end),
          Some (match mm.2 with Some m => Z.max m x | None => x end)))
      l (Some m, Some M) = (Some m', Some M') /\
    m' <= m /\ M <= M' /\
    (m' = m \/ m' ∈ l) /\ (M' = M \/ M' ∈ l) /\
    (forall x, x ∈ l -> m' <= x <= M').
Proof.
  induction l as [|a l IH]; intros m M Hm.
  - exists m, M. simpl. split; [done|]. split; [lia|]. split; [lia|].
    split; [by left|]. split; [by left|]. intros x Hx. inversion Hx.
  - cbn [fold_left fst snd].
    destruct (IH (Z.min m a) (Z.max M a)) as (m' & M' & -> & H1 & H2 & H3 & H4 & H5); [lia|].
    exists m', M'. split; [done|]. split; [lia|]. split; [lia|]. split; [|split].
    + destruct H3 as [->|H3]; [|right; by right].
      destruct (Z.min_spec m a) as [[_ ->]|[_ ->]]; [by left|right; by left].
    + destruct H4 as [->|H4]; [|right; by right].
      destruct (Z.max_spec M a) as [[_ ->]|[_ ->]]; [right; by left|by left].
    + intros x Hx. apply elem_of_cons in Hx as [->|Hx]; [lia|by apply H5].
Qed.

(** X19. [extent] of an array that is not empty is its least and its
    greatest entry; of an empty array it is [[Infinity, -Infinity]], a
    minimum above the maximum. *)
Theorem extent_bounds (l : list Z) :
  extent [] = (None, None) /\
  (l <> [] ->
   exists m M,
     extent l = (Some m, Some M) /\ m ∈ l /\ M ∈ l /\
     forall x, x ∈ l -> m <= x <= M).
Proof.
  split; [reflexivity|]. intros Hne. destruct l as [|a l]; [done|].
  unfold extent. cbn [fold_left fst snd].
  destruct (extent_fold l a a) as (m & M & -> & H1 & H2 & H3 & H4 & H5); [lia|].
  exists m, M. split; [done|]. split; [|split].
  - destruct H3 as [->|H3]; [by left|by right].
  - destruct H4 as [->|H4]; [by left|by right].
  - intros x Hx. apply elem_of_cons in Hx as [->|Hx]; [lia|by apply H5].
Qed.


(** X21. [cartesian] holds exactly the pairs of an entry of the first array
    and an entry of the second, one for each pair of positions. *)
Theorem cartesian_pairs {A B} (left : list A) (right : list B) (p : A) (q : B) :
  ((p, q) ∈ cartesian left right <-> p ∈ left /\ q ∈ right) /\
  length (cartesian left right) = (length left * length right)%nat /\
  (forall i j : nat,
      (j < length right)%nat ->
      cartesian left right !! (i * length right + j)%nat
      = (left !! i) ≫= (fun a => (fun b => (a, b)) <$> right !! j)).
Proof.
  unfold cartesian. split; [|split].
  - rewrite list_elem_of_In, in_flat_map. split.
    + intros (a & Ha & Hin). apply in_map_iff in Hin as (b & [= -> ->] & Hb).
      by rewrite !list_elem_of_In.
    + intros [Hp Hq]. rewrite !list_elem_of_In in *. exists p. split; [done|].
      apply in_map_iff. eauto.
  - induction left as [|a left IH]; [done|].
    simpl. rewrite length_app, length_map, IH. done.
  - induction left as [|a left IH]; intros i j Hj.
    + simpl. done.
    + cbn [flat_map]. destruct i as [|i].
      * simpl. rewrite lookup_app_l by (by rewrite length_map).
        by rewrite list_lookup_fmap.
      * replace (S i * length right + j)%nat
          with (length (map (fun q0 => (a, q0)) right) + (i * length right + j))%nat
          by (rewrite length_map; lia).
        rewrite lookup_app_r by lia.
        replace (length (map (fun q0 => (a, q0)) right) + (i * length right + j)
                 - length (map (fun q0 : B => (a, q0)) right))%nat
          with (i * length right + j)%nat by lia.
        by rewrite IH.
Qed.

Lemma sublists_1 {A} (l : list A) : sublists 1 l = map (fun e => [e]) l.
Proof.
  induction l as [|x r IH]; [done|]. cbn [sublists map].
  rewrite IH. by destruct r.
Qed.

Lemma elem_of_sublists {A} (l : list A) : forall (n : nat) (c : list A),
  c ∈ sublists n l <-> c `sublist_of` l /\ length c = n.
Proof.
  induction l as [|x r IH]; intros n c.
  - rewrite sublist_nil_r. destruct n as [|k]; simpl.
    + rewrite list_elem_of_singleton. split; [by intros ->|by intros [-> _]].
    + split; [by intros ?%elem_of_nil|by intros [-> ?]].
  - destruct n as [|k].
    + simpl. rewrite list_elem_of_singleton. split.
      * intros ->. split; [apply sublist_nil_l|done].
      * intros [_ Hc]. by destruct c.
    + cbn [sublists]. rewrite elem_of_app, list_elem_of_fmap, sublist_cons_r.
      rewrite IH. split.
      * intros [(c' & -> & Hc')|[Hc Hlen]].
        -- apply IH in Hc' as [Hc' <-]. split; [right; eauto|done].
        -- split; [by left|done].
      * intros [[Hc|(c' & -> & Hc')] Hlen].
        -- by right.
        -- left. exists c'. split; [done|]. apply IH. split; [done|].
           simpl in Hlen. lia.
Qed.

Lemma NoDup_sublists {A} (l : list A) : forall n : nat,
  NoDup l -> NoDup (sublists n l).
Proof.
  induction l as [|x r IH]; intros n Hnd.
  - destruct n; simpl; [apply NoDup_singleton|apply NoDup_nil_2].
  - apply NoDup_cons in Hnd as [Hx Hnd]. destruct n as [|k].
    + apply NoDup_singleton.
    + cbn [sublists]. apply NoDup_app. split; [|split].
      * apply (NoDup_fmap_2 _). by apply IH.
      * intros c (c' & -> & _)%list_elem_of_fmap Hc.
        apply elem_of_sublists in Hc as [Hc _].
        apply sublist_cons_l in Hc as (k1 & k2 & -> & _).
        apply Hx, elem_of_app. right. by left.
      * by apply IH.
Qed.

Lemma combinations_of_cons {A} (x : A) (r : list A) (n : Z) :
  n <> 1 ->
  combinations_of (x :: r) n
  = map (fun c => x :: c) (combinations_of r (n - 1)) ++ combinations_of r n.
Proof.
  intros Hn. unfold combinations_of.
  destruct (n <? 1) eqn:E.
  - apply Z.ltb_lt in E. assert ((n - 1 <? 1) = true) as -> by (apply Z.ltb_lt; lia).
    done.
  - apply Z.ltb_ge in E. assert ((n - 1 <? 1) = false) as -> by (apply Z.ltb_ge; lia).
    replace (Z.to_nat n) with (S (Z.to_nat (n - 1))) by lia. done.
Qed.

Lemma combinations_returns {A} : forall (fuel : nat) (elements : list A) (n : Z),
  (length elements < fuel)%nat ->
  combinations fuel elements n = Some (combinations_of elements n).
Proof.
  induction fuel as [|fuel IH]; intros elements n Hfuel; [lia|].
  cbn [combinations]. destruct (n =? 1) eqn:E.
  - apply Z.eqb_eq in E as ->. unfold combinations_of. simpl.
    by rewrite sublists_1.
  - apply Z.eqb_neq in E.
    enough (Hsuf : forall (pre suffix : list A),
               elements = pre ++ suffix ->
               flat_map_from
                 (fun index first =>
                    match combinations fuel (drop (S index) elements) (n - 1) with
                    | Some partials =>
                        Some (map (fun partial => first :: partial) partials)
                    | None => None
                    end) (length pre) suffix
               = Some (combinations_of suffix n)).
    { apply (Hsuf [] elements). done. }
    intros pre suffix. revert pre.
    induction suffix as [|x r IHr]; intros pre Hel.
    + simpl. unfold combinations_of. destruct (n <? 1) eqn:E1; [done|].
      apply Z.ltb_ge in E1. destruct (Z.to_nat n) eqn:En; [lia|done].
    + cbn [flat_map_from].
      assert (Hdrop : drop (S (length pre)) elements = r).
      { rewrite Hel, cons_middle, (assoc_L (++)).
        replace (S (length pre)) with (length (pre ++ [x]))
          by (rewrite length_app; simpl; lia).
        apply drop_app_length. }
      rewrite Hdrop. rewrite IH.
      2:{ rewrite Hel, length_app in Hfuel. simpl in Hfuel. lia. }
      specialize (IHr (pre ++ [x])).
      rewrite length_app in IHr. simpl in IHr.
      replace (length pre + 1)%nat with (S (length pre)) in IHr by lia.
      rewrite IHr by (by rewrite Hel, <- (assoc_L (++))).
      by rewrite combinations_of_cons.
Qed.

(** X22. [combinations(elements, n)] returns, for [n] at least 1, the
    sublists of [elements] of [n] entries (each once when the entries
    differ), and the empty array for [n] below 1, also for [n = 0]. *)
Theorem combinations_sublists {A} (elements : list A) (n : Z) (fuel : nat) :
  (length elements < fuel)%nat ->
  exists l,
    combinations fuel elements n = Some l /\
    (n < 1 -> l = []) /\
    (1 <= n -> forall c, c ∈ l <->
                         c `sublist_of` elements /\ Z.of_nat (length c) = n) /\
    (NoDup elements -> NoDup l).
Proof.
  intros Hfuel. exists (combinations_of elements n).
  split; [by apply combinations_returns|]. unfold combinations_of.
  split; [|split].
  - intros Hn. apply Z.ltb_lt in Hn. by rewrite Hn.
  - intros Hn c. assert ((n <? 1) = false) as -> by (apply Z.ltb_ge; lia).
    rewrite elem_of_sublists. split; intros [? ?]; (split; [done|lia]).
  - intros Hnd. destruct (n <? 1); [apply NoDup_nil_2|by apply NoDup_sublists].
Qed.

Lemma combinations_sublists_witness :
  exists l,
    combinations 4 [1; 2; 3] 2 = Some l /\
    (2 < 1 -> l = []) /\
    (1 <= 2 -> forall c, c ∈ l <->
                         c `sublist_of` [1; 2; 3] /\ Z.of_nat (length c) = 2) /\
    (NoDup [1; 2; 3] -> NoDup l).
Proof. apply (combinations_sublists [1; 2; 3] 2 4). simpl. lia. Defined.

(** ** The shuffle is a permutation *)









(** With the draw [1 - 2^-53] [randint(4, 6)] is 6: the array that
    [shuffled] returns has an entry more, and [undefined] in the place of
    the fifth. *)
Example shuffled_grows :
  Binary64.randint 4 6 0x1.fffffffffffffp-1 = 6 /\
  (Binary64.shuffled [1; 2; 3; 4; 5; 6]
     (fun k => if (k =? 4)%nat then 0x1.fffffffffffffp-1%float else 0%float)).1
  = [Some 1; Some 2; Some 3; Some 4; None; Some 6; Some 5].
Proof. split; vm_compute; reflexivity. Qed.

(** ** Reads and writes of the map *)

(** X24. A read of a [defaultdict] returns what is stored under the name,
    or stores the factory's value there first; it changes no other name,
    and a second read returns the same and changes nothing. *)
Theorem defaultdict_read {V} (factory : V) (target : gmap Z V) (name : Z) :
  let '(v, target') := dd_get factory target name in
  v = default factory (target !! name) /\
  target' !! name = Some v /\
  (forall other, other <> name -> target' !! other = target !! other) /\
  dd_get factory target' name = (v, target').
Proof.
  unfold dd_get. destruct (target !! name) as [v|] eqn:E.
  - rewrite E. done.
  - rewrite lookup_insert_eq. split; [done|]. split; [done|]. split; [|done].
    intros other Hne. by rewrite lookup_insert_ne.
Qed.

(** X25. A write to [cells] is what the next read of the cell returns, and
    it changes what no other cell reads as; a read returns [false] for a
    cell without entry, and the same a second time. *)
Theorem cells_write_then_read (cells : cells_t) (q r : Z) (v : bool) (c : axial) :
  (cells_get (cells_set cells q r v) q r).1 = v /\
  (c <> (q, r) ->
   (cells_get (cells_set cells q r v) c.1 c.2).1 = (cells_get cells c.1 c.2).1) /\
  (cell_value cells (q, r) = None -> (cells_get cells q r).1 = false) /\
  cells_get (cells_get cells q r).2 q r = cells_get cells q r.
Proof.
  split; [|split; [|split]].
  - rewrite cells_get_value, cells_set_cells. by rewrite decide_True.
  - intros Hne. destruct c as [q' r']. simpl.
    rewrite !cells_get_value, cells_set_cells. by rewrite decide_False.
  - intros H. by rewrite cells_get_value, H.
  - pose proof (cells_get_cells cells q r (q, r)) as H.
    rewrite decide_True in H by done.
    rewrite (cells_get_present _ _ _ _ H).
    rewrite <- cells_get_value. by destruct (cells_get cells q r).
Qed.

(** ** Matrices and pixels *)

Lemma transpose_lookup (matrix : list (list float)) (m n i j : nat) :
  rectangular (S m) n matrix -> (i < n)%nat -> (j < S m)%nat ->
  transpose matrix !! i ≫= (.!! j) = matrix !! j ≫= (.!! i).
Proof.
  intros [Hm Hn] Hi Hj. destruct matrix as [|row0 rest]; [discriminate|].
  unfold transpose. rewrite list_lookup_imap.
  assert (H0 : length row0 = n) by (apply Hn; left).
  destruct (lookup_lt_is_Some_2 row0 i) as [x0 Hx0]; [lia|].
  rewrite Hx0. cbn [fmap option_fmap option_map mbind option_bind].
  rewrite list_lookup_fmap.
  destruct (lookup_lt_is_Some_2 (row0 :: rest) j) as [row Hrow]; [lia|].
  rewrite Hrow. cbn [fmap option_fmap option_map mbind option_bind].
  assert (Hr : length row = n) by (apply Hn; by eapply list_elem_of_lookup_2).
  destruct (lookup_lt_is_Some_2 row i) as [x Hx]; [lia|].
  rewrite nth_lookup, Hx. done.
Qed.

Lemma transpose_rectangular (matrix : list (list float)) (m n : nat) :
  rectangular (S m) n matrix -> rectangular n (S m) (transpose matrix).
Proof.
  intros [Hm Hn]. destruct matrix as [|row0 rest]; [discriminate|].
  unfold transpose. split.
  - rewrite length_imap. apply Hn. left.
  - intros col Hcol. apply list_elem_of_lookup in Hcol as [i Hi].
    rewrite list_lookup_imap in Hi.
    destruct (row0 !! i); [|discriminate].
    cbn [fmap option_fmap option_map] in Hi. injection Hi as <-.
    cbn [length] in *. by rewrite length_map.
Qed.

Lemma rectangular_eq (m n : nat) (a b : list (list float)) :
  rectangular m n a -> rectangular m n b ->
  (forall i j : nat, (i < m)%nat -> (j < n)%nat ->
                     a !! i ≫= (.!! j) = b !! i ≫= (.!! j)) ->
  a = b.
Proof.
  intros [Ham Han] [Hbm Hbn] H. apply (list_eq_same_length _ _ m); [done..|].
  intros i ra rb Hi Hra Hrb.
  apply (list_eq_same_length _ _ n).
  - apply Hbn. by eapply list_elem_of_lookup_2.
  - apply Han. by eapply list_elem_of_lookup_2.
  - intros j x y Hj Hx Hy. specialize (H i j Hi Hj).
    rewrite Hra, Hrb in H. simpl in H. congruence.
Qed.

(** X26. On a matrix of [m] rows of [n] entries, [m] and [n] at least 1,
    [transpose] returns [n] rows of [m] entries with the entry [i, j] at
    [j, i], and transposing twice gives the matrix back. *)
Theorem transpose_involutive (matrix : list (list float)) (m n : nat) :
  rectangular (S m) (S n) matrix ->
  rectangular (S n) (S m) (transpose matrix) /\
  (forall i j : nat, (i < S n)%nat -> (j < S m)%nat ->
     transpose matrix !! i ≫= (.!! j) = matrix !! j ≫= (.!! i)) /\
  transpose (transpose matrix) = matrix.
Proof.
  intros Hrect.
  pose proof (transpose_rectangular _ _ _ Hrect) as Ht.
  split; [done|]. split.
  - intros i j Hi Hj. by eapply transpose_lookup.
  - apply (rectangular_eq (S m) (S n)); [by apply transpose_rectangular|done|].
    intros i j Hi Hj.
    rewrite (transpose_lookup _ n (S m)) by done.
    by eapply transpose_lookup.
Qed.

Lemma transpose_involutive_witness :
  rectangular 2 3 [ [1; 2; 3]; [4; 5; 6] ]%float /\
  transpose [ [1; 2; 3]; [4; 5; 6] ]%float = [ [1; 4]; [2; 5]; [3; 6] ]%float /\
  transpose (transpose [ [1; 2; 3]; [4; 5; 6] ]%float) = [ [1; 2; 3]; [4; 5; 6] ]%float.
Proof.
  assert (H : rectangular 2 3 [ [1; 2; 3]; [4; 5; 6] ]%float).
  { split; [reflexivity|]. intros row Hrow.
    apply elem_of_cons in Hrow as [->|Hrow]; [reflexivity|].
    apply elem_of_cons in Hrow as [->|Hrow]; [reflexivity|]. inversion Hrow. }
  split; [exact H|]. split; [reflexivity|].
  exact (proj2 (proj2 (transpose_involutive _ 1 2 H))).
Defined.

Lemma div_by_zero (t : float) :
  unbounded (t / 0)%float /\ unbounded (t / -0)%float.
Proof.
  unfold unbounded.
  rewrite <- (SF2Prim_Prim2SF (t / 0)%float), <- (SF2Prim_Prim2SF (t / -0)%float).
  rewrite !div_spec.
  change (Prim2SF 0%float) with (S754_zero false).
  change (Prim2SF (-0)%float) with (S754_zero true).
  destruct (Prim2SF t) as [s|s| |s m e]; try destruct s; vm_compute; auto.
Qed.

Lemma pixel_to_axial_unbounded (p : float * float) (size : float) :
  (forall t : float, unbounded (t / size)%float) ->
  pixel_to_axial p size = (0, 0).
Proof.
  intros Hdiv. destruct p as [x y]. unfold pixel_to_axial, pixel_to_fractional.
  cbn [matmul transpose map imap concat app PIXEL_TO_AXIAL nth].
  generalize (Hdiv (dot [2 / 3; 0] [x; y])%float).
  generalize (Hdiv (dot [-1 / 3; sqrt 3 / 3] [x; y])%float).
  generalize (dot [2 / 3; 0] [x; y] / size)%float as a.
  generalize (dot [-1 / 3; sqrt 3 / 3] [x; y] / size)%float as b.
  intros b a [-> |[-> | ->]] [-> |[-> | ->]]; vm_compute; reflexivity.
Qed.

(** X27. At the size [0] (or [-0]) [pixel_to_axial] divides by zero and
    returns the cell (0, 0) for every pixel. *)
Theorem pixel_to_axial_size_0 (p : float * float) :
  pixel_to_axial p 0%float = (0, 0) /\ pixel_to_axial p (-0)%float = (0, 0).
Proof.
  split; apply pixel_to_axial_unbounded; intros t; apply div_by_zero.
Qed.

Lemma forallb_zrange (p : Z -> bool) (a : Z) (n : nat) (x : Z) :
  forallb p (zrange a n) = true -> a <= x < a + Z.of_nat n -> p x = true.
Proof.
  intros H Hx. rewrite forallb_forall in H. apply H.
  apply list_elem_of_In, elem_of_zrange. done.
Qed.

(** X28. At the size 16, with which the application starts, the pixel of
    the center of a cell is a pixel of that cell, for the cells up to 32
    columns and rows from the origin. *)
Theorem center_is_in_its_cell (q r : Z) :
  -32 <= q <= 32 -> -32 <= r <= 32 ->
  pixel_to_axial (as_pixel (axial_to_pixel (of_Z q, of_Z r) 16)) 16 = (q, r).
Proof.
  intros Hq Hr.
  assert (H : forallb (fun q => forallb (fun r => center_round_trip 16 (q, r))
                                  (zrange (-32) 65)) (zrange (-32) 65) = true)
    by (vm_compute; reflexivity).
  apply (forallb_zrange _ _ _ q) in H; [|lia].
  apply (forallb_zrange _ _ _ r) in H; [|lia].
  apply bool_decide_eq_true_1 in H. exact H.
Qed.

Lemma center_is_in_its_cell_witness :
  pixel_to_axial (as_pixel (axial_to_pixel (of_Z 7, of_Z (-3)) 16)) 16 = (7, -3).
Proof. apply (center_is_in_its_cell 7 (-3)); lia. Defined.

(** ** The canvas *)

(** X29. [#fillAt] colours the cell [(q, r)] by the entry that the
    generator wrote for the mirrored cell: with [wrap (q, r) = (q_, r_)]
    it reads [cells[q_][r_]], where [generateWorld] wrote [cells[r][q]].
    The read changes no cell's state. *)
Theorem fillAt_reads_mirrored (fuel : nat) (radius : Z) (cells : cells_t)
  (c : axial) (q_ r_ : Z) :
  wrap fuel radius c = Some (q_, r_) ->
  exists index cells',
    fillAt fuel radius cells c = Some (index, cells') /\
    (index = 1 <-> is_open cells (r_, q_)) /\
    (index = 0 <-> ~ is_open cells (r_, q_)) /\
    (forall c', is_open cells' c' <-> is_open cells c').
Proof.
  intros Hw. unfold fillAt. rewrite Hw.
  pose proof (cells_get_value cells r_ q_) as Hv.
  pose proof (fun c' => is_open_cells_get cells r_ q_ c') as Hc.
  destruct (cells_get cells r_ q_) as [v cells']. simpl in Hv, Hc.
  eexists _, _. split; [reflexivity|]. split; [|split; [|exact Hc]].
  - unfold is_open. rewrite Hv.
    destruct (cell_value cells (r_, q_)) as [[]|]; simpl; split; (done || lia).
  - unfold is_open. rewrite Hv.
    destruct (cell_value cells (r_, q_)) as [[]|]; simpl; split;
      (done || lia || (try (intros H; by destruct H))).
Qed.

Lemma fillAt_reads_mirrored_witness :
  exists index cells',
    fillAt 5 2 (cells_set ∅ 2 (-2) true) (-3, 0) = Some (index, cells') /\
    (index = 1 <-> is_open (cells_set ∅ 2 (-2) true) (-2, 2)) /\
    (index = 0 <-> ~ is_open (cells_set ∅ 2 (-2) true) (-2, 2)) /\
    (forall c', is_open cells' c' <-> is_open (cells_set ∅ 2 (-2) true) c').
Proof.
  apply (fillAt_reads_mirrored 5 2 (cells_set ∅ 2 (-2) true) (-3, 0) 2 (-2)).
  reflexivity.
Defined.

Lemma zrange_S a n : zrange a (S n) = a :: zrange (a + 1) n.
Proof.
  unfold zrange. cbn [seq map]. f_equal; [lia|].
  rewrite <- seq_shift, map_map. apply map_ext. intros k. lia.
Qed.

Lemma range2_unit : forall (fuel : nat) (start stop : Z),
  stop - start <= Z.of_nat fuel ->
  range2 (S fuel) start stop 1 = Some (zrange start (Z.to_nat (stop - start))).
Proof.
  induction fuel as [|fuel IH]; intros start stop Hfuel.
  - cbn [range2]. destruct (start <? stop) eqn:E; [apply Z.ltb_lt in E; lia|].
    apply Z.ltb_ge in E. by replace (Z.to_nat (stop - start)) with O by lia.
  - change (range2 (S (S fuel)) start stop 1)
      with (if start <? stop
            then cons start <$> range2 (S fuel) (start + 1) stop 1
            else Some []).
    destruct (start <? stop) eqn:E.
    + apply Z.ltb_lt in E. rewrite IH by lia.
      replace (Z.to_nat (stop - start)) with (S (Z.to_nat (stop - (start + 1)))) by lia.
      by rewrite zrange_S.
    + apply Z.ltb_ge in E. by replace (Z.to_nat (stop - start)) with O by lia.
Qed.

Lemma flat_map_from_Some {A B} (f : nat -> A -> option (list B))
  (g : A -> list B) (l : list A) :
  (forall i x, f i x = Some (g x)) ->
  forall index, flat_map_from f index l = Some (l ≫= g).
Proof.
  intros Hf. induction l as [|x l IH]; intros index; [done|].
  cbn [flat_map_from]. by rewrite Hf, IH.
Qed.

Lemma offset_round_trip (c : axial) (x y : Z) :
  odd_q_to_axial (x, y) = c <-> axial_to_odd_q c = (x, y).
Proof.
  destruct c as [q r]. unfold odd_q_to_axial, axial_to_odd_q. split.
  - intros [= <- <-]. f_equal. lia.
  - intros [= <- <-]. f_equal. lia.
Qed.

(** X30. [Map.#draw] paints each cell once: the cells whose offset
    coordinates lie in the window between the cells of the two corners
    of the canvas, one column and one row more on each side. *)
Theorem draw_paints_the_window (left top width height scale : float) :
  exists (enough : nat) (cells : list axial),
    (forall fuel : nat, (enough <= fuel)%nat ->
                        draw fuel left top width height scale = Some cells) /\
    NoDup cells /\
    (forall c, c ∈ cells <->
       let lt := axial_to_odd_q (pixel_to_axial (left, top) scale) in
       let rb := axial_to_odd_q
                   (pixel_to_axial ((left + width)%float, (top + height)%float)
                      scale) in
       lt.1 - 1 <= (axial_to_odd_q c).1 <= rb.1 + 1 /\
       lt.2 - 1 <= (axial_to_odd_q c).2 <= rb.2 + 1).
Proof.
  unfold draw. cbv zeta.
  destruct (axial_to_odd_q (pixel_to_axial (left, top) scale)) as [left_ top_].
  destruct (axial_to_odd_q
              (pixel_to_axial ((left + width)%float, (top + height)%float) scale))
    as [right_ bottom_].
  cbn [fst snd].
  set (nx := Z.to_nat (right_ + 2 - (left_ - 1))).
  set (ny := Z.to_nat (bottom_ + 2 - (top_ - 1))).
  exists (S (nx + ny)).
  exists (zrange (left_ - 1) nx ≫= fun x =>
            map (fun y => odd_q_to_axial (x, y)) (zrange (top_ - 1) ny)).
  split; [|split].
  - intros [|fuel] Hfuel; [lia|].
    rewrite !range2_unit by lia. cbn [mbind option_bind].
    by apply flat_map_from_Some.
  - apply NoDup_bind.
    + intros x1 x2 c _ _ H1 H2.
      apply list_elem_of_fmap in H1 as (y1 & -> & _).
      apply list_elem_of_fmap in H2 as (y2 & H2 & _).
      unfold odd_q_to_axial in H2. by injection H2.
    + intros x _. apply NoDup_fmap_2_strong; [|apply NoDup_zrange].
      intros y1 y2 _ _ H. unfold odd_q_to_axial in H. injection H. lia.
    + apply NoDup_zrange.
  - intros c. rewrite list_elem_of_bind. split.
    + intros (x & Hc & Hx). apply list_elem_of_fmap in Hc as (y & -> & Hy).
      apply elem_of_zrange in Hx, Hy.
      assert (H : axial_to_odd_q (odd_q_to_axial (x, y)) = (x, y))
        by (by apply offset_round_trip).
      rewrite H. simpl. lia.
    + intros [Hx Hy]. destruct (axial_to_odd_q c) as [x y] eqn:E.
      simpl in Hx, Hy. exists x. split.
      * apply list_elem_of_fmap. exists y. split.
        -- symmetry. by apply offset_round_trip.
        -- apply elem_of_zrange. lia.
      * apply elem_of_zrange. lia.
Qed.

(** ** The two arithmetics on small numbers

    At the bounds of the theorems the code, on doubles, computes what
    the functions on integers do. *)

Example wrap_on_doubles_small :
  Binary64.wrap 9 (of_Z (2 ^ 50)) (cell_of (- 2 ^ 50, 2 ^ 50 - 5))
  = cell_of <$> wrap 9 (2 ^ 50) (- 2 ^ 50, 2 ^ 50 - 5) /\
  Binary64.wrap 9 2 (cell_of (7, -3)) = cell_of <$> wrap 9 2 (7, -3).
Proof. split; vm_compute; reflexivity. Qed.

(** One call of [wrap], for the radii and the coordinates of [extremes]. *)
Example wrap_call_on_doubles_small :
  forallb (fun radius =>
    forallb (fun q =>
      forallb (fun r =>
        same_step (Binary64.wrap_call (of_Z radius) (cell_of (q, r)))
                  (step_of (wrap_call radius (q, r))))
        extremes) extremes)
    (filter (fun radius => bool_decide (0 <= radius)) extremes)
  = true.
Proof. vm_compute. reflexivity. Qed.

(** The distance, five steps of rotation and the round trip of the
    conversions, for the coordinates of [bounds]. *)
Example distance_on_doubles_small :
  forallb (fun q => forallb (fun r => forallb (fun q' => forallb (fun r' =>
    PrimFloat.eqb (Binary64.distance (cell_of (q, r)) (cell_of (q', r')))
                  (of_Z (distance (q, r) (q', r')))
    && same_cell (Binary64.rotation (cell_of (q, r)) 5) (cell_of (rotation (q, r) 5))
    && same_cell (Binary64.odd_q_to_axial (Binary64.axial_to_odd_q (cell_of (q, r))))
                 (cell_of (odd_q_to_axial (axial_to_odd_q (q, r)))))
    bounds) bounds) bounds) bounds
  = true.
Proof. vm_compute. reflexivity. Qed.

(** The budget on doubles: up to the radius [2^20] it has a fraction and
    the floor of the exact budget; for the radius [10^8] it is an
    integer, although [area] is no multiple of 5. *)
Example budget_on_doubles :
  forallb (fun radius =>
    let n := Binary64.steps (of_Z radius) in
    (trunc n =? Qfloor (steps radius)) && PrimFloat.ltb (of_Z (trunc n)) n)
    [ 0; 1; 2; 3; 4; 5; 10; 1000; 2 ^ 20 - 1; 2 ^ 20 ]
  = true /\
  of_Z (trunc (Binary64.steps (of_Z (10 ^ 8)))) = Binary64.steps (of_Z (10 ^ 8)).
Proof. split; vm_compute; reflexivity. Qed.
